(** * Forest-fire session service (PR6_DCPS): route.ts

    A shallow embedding of [src/app/api/forest-fire/route.ts] and of the
    stream loop of its earlier variant, with the properties of the
    dense-field reconstruction (POST), of the session registry
    (POST / GET / DELETE) and of the server-sent-event loop (GET). *)

From stdpp Require Import gmap strings list pretty.
From Stdlib Require Import Ascii ZArith QArith Lia.

Local Open Scope Z_scope.

(** ** Cells, coordinates and JavaScript arrays *)

(** Modelled from the spec: the declarations of [types/types] are not part of
    the sources at hand; a cell is [{ x, y, state, burnTime }] with the three
    states 'T' (tree), 'B' (burning) and 'E' (empty), as the canvas component
    switches on them. *)
Inductive CellState : Set := T | B | E.

Record Cell : Set := mkCell {
  x : Z;
  y : Z;
  state : CellState;
  burnTime : Z
}.

Global Instance CellState_eq_dec : EqDecision CellState.
Proof. solve_decision. Defined.

Global Instance Cell_eq_dec : EqDecision Cell.
Proof. solve_decision. Defined.

(** The template literal [`${cell.x},${cell.y}`]: decimal rendering of the two
    integers, separated by a comma. *)
Definition coordKey (cx cy : Z) : string :=
  pretty cx +:+ "," +:+ pretty cy.

(** A JavaScript array of cells. An element is [None] where the array has a
    hole (an index below [length] that was never written). *)
Abbreviation CellArray := (list (option Cell)).

(** [arr[index] = cell] on a JavaScript array: an index inside the array
    overwrites, an index at or past the end extends the array (leaving holes
    in between), and a negative number is no array index at all (the
    assignment creates a named property and leaves the elements alone). The
    numbers of the request body ([width], [height], the coordinates and the
    values of [coords]) are taken to be integers, and an index at or past the
    end to be an array index, that is, below 2^32 - 1: from 4294967295 on
    JavaScript creates a named property as well, and the array is not
    extended. *)
Definition arraySet (arr : CellArray) (index : Z) (cell : Cell) : CellArray :=
  if decide (index < 0) then arr
  else
    let n := Z.to_nat index in
    if decide (n < length arr)%nat then <[n := Some cell]> arr
    else arr ++ replicate (n - length arr) None ++ [Some cell].

(** ** POST: reconstruction of the full field (route.ts, lines 36-65) *)

(** [Math.floor(size / 2)], [-half] and [half + (size % 2 === 0 ? 0 : 1)]:
    [halfWidth], [startX], [endX] for the width and [halfHeight], [startY],
    [endY] for the height. JavaScript's [%] is the truncating remainder. *)
Definition halfOf (size : Z) : Z := size / 2.
Definition startOf (size : Z) : Z := - halfOf size.
Definition endOf (size : Z) : Z :=
  halfOf size + (if decide (Z.rem size 2 = 0) then 0 else 1).

(** [for (let v = lo; v < hi; v++)]: the values the loop variable takes. *)
Definition forRange (lo hi : Z) : list Z := seqZ lo (hi - lo).

Definition treeCell (cx cy : Z) : Cell := mkCell cx cy T 0.

(** Lines 53-55: the inner loop pushes the trees of one row. *)
Definition treeRow (width cy : Z) : CellArray :=
  (λ cx, Some (treeCell cx cy)) <$> forRange (startOf width) (endOf width).

(** Lines 44-56: every cell of the box pushed as a tree, row by row. *)
Definition treeCells (width height : Z) : CellArray :=
  let halfWidth := width / 2 in
  let halfHeight := height / 2 in
  let startX := - halfWidth in
  let startY := - halfHeight in
  let endX := halfWidth + (if decide (Z.rem width 2 = 0) then 0 else 1) in
  let endY := halfHeight + (if decide (Z.rem height 2 = 0) then 0 else 1) in
  concat
    ((λ cy, (λ cx, Some (mkCell cx cy T 0)) <$> forRange startX endX)
       <$> forRange startY endY).

(** Lines 59-65, one iteration: the cell is stored at the index the client's
    [coords] gives for its key, and skipped when the key is absent. *)
Definition overlayCell (coordMap : gmap string Z) (arr : CellArray) (cell : Cell)
  : CellArray :=
  match coordMap !! coordKey (x cell) (y cell) with
  | Some index => arraySet arr index cell
  | None => arr
  end.

Definition overlay (coordMap : gmap string Z) (arr : CellArray)
    (cells : list Cell) : CellArray :=
  fold_left (overlayCell coordMap) cells arr.

(** [fullField.cells] after lines 36-65. *)
Definition reconstruct (width height : Z) (cells : list Cell)
    (coords : gmap string Z) : CellArray :=
  overlay coords (treeCells width height) cells.

(** The bounding box of the spec and the row-major position of a coordinate. *)
Definition inBox (width height cx cy : Z) : Prop :=
  - (width / 2) <= cx < width - width / 2 /\
  - (height / 2) <= cy < height - height / 2.

Definition position (width height cx cy : Z) : Z :=
  (cy + height / 2) * width + (cx + width / 2).

Global Instance inBox_dec width height cx cy : Decision (inBox width height cx cy).
Proof. unfold inBox. apply _. Defined.

(** The coordinates of the box, in the order the two loops visit them. *)
Definition boxCoords (width height : Z) : list (Z * Z) :=
  cy ← forRange (startOf height) (endOf height);
  cx ← forRange (startOf width) (endOf width);
  [(cx, cy)].

(** The [coords] object a client obtains by indexing the full row-major
    field: every coordinate of the box mapped to its position. *)
Definition rowMajorCoords (width height : Z) : gmap string Z :=
  list_to_map
    ((fun p : Z * Z => (coordKey p.1 p.2, position width height p.1 p.2))
       <$> boxCoords width height).

(** [arr[i]] read from a JavaScript array: [undefined] ([None]) out of range
    and at a hole. *)
Definition arrayGet (arr : CellArray) (i : Z) : option Cell :=
  if decide (0 <= i) then mjoin (arr !! Z.to_nat i) else None.

(** The Field invariant of the data model: [width * height] entries, and the
    cell of every coordinate of the box at the row-major position of that
    coordinate. *)
Definition fieldInvariant (width height : Z) (arr : CellArray) : Prop :=
  length arr = Z.to_nat (width * height) /\
  forall cx cy, inBox width height cx cy ->
    exists c, arrayGet arr (position width height cx cy) = Some c /\
              x c = cx /\ y c = cy.

(** The supplied cell that is written last at a coordinate, if any. *)
Definition lastSupplied (cells : list Cell) (cx cy : Z) : option Cell :=
  last (filter (fun c => x c = cx /\ y c = cy) cells).

(** Modelled from the spec: the extraction of the non-Tree cells (the
    client's side of the round trip) is not part of the sources at hand; it
    is [cells.filter(c => c.state !== 'T')], and [filter] skips holes. *)
Definition nonTreeCells (arr : CellArray) : list Cell :=
  filter (fun c => state c <> T) (omap id arr).


(** ** The session registry (route.ts, lines 10-18) *)

(** Modelled from the spec: [Field] and [ForestFireParams] are declared in
    [types/types], which is not part of the sources at hand. A field is
    [{ width, height, cells, coordMap }]; of the parameters only
    [updateInterval] (seconds) is used by the route. *)
Record Field : Type := mkField {
  width : Z;
  height : Z;
  cells : CellArray;
  coordMap : gmap string Z
}.

Record ForestFireParams : Type := mkParams {
  updateInterval : Q
}.

(** A registry entry. Its [coordMap] is the projection [sessionCoordMap]; an
    [AbortController] is an object shared by reference between the registry
    entry and the closures of the streams attached to it, so the entry holds
    a reference into the set of aborted signals of the server state. *)
Record Session : Type := mkSession {
  field : Field;
  params : ForestFireParams;
  sessionCoordMap : gmap string Z;
  abortController : nat
}.

Record Server : Type := mkServer {
  sessions : gmap string Session;
  abortedSignals : gset nat;
  controllers : nat
}.

Definition emptyServer : Server := mkServer ∅ ∅ 0.

(** [session.abortController.signal.aborted] *)
Definition signalAborted (srv : Server) (session : Session) : bool :=
  bool_decide (abortController session ∈ abortedSignals srv).

(** [session.abortController.abort()] *)
Definition abort (session : Session) (srv : Server) : Server :=
  mkServer (sessions srv) ({[ abortController session ]} ∪ abortedSignals srv)
           (controllers srv).

(** [sessions.delete(sessionId)] *)
Definition sessionsDelete (sessionId : string) (srv : Server) : Server :=
  mkServer (delete sessionId (sessions srv)) (abortedSignals srv) (controllers srv).

(** [sessions.set(sessionId, { ..., abortController: new AbortController() })] *)
Definition sessionsSet (sessionId : string) (f : Field) (p : ForestFireParams)
    (srv : Server) : Server :=
  mkServer (<[ sessionId := mkSession f p (coordMap f) (controllers srv) ]> (sessions srv))
           (abortedSignals srv) (S (controllers srv)).

(** The request body of POST after [request.json()]; an absent part is
    [None]. *)
Module Body.

Record FieldJson : Type := mkFieldJson {
  width : Z;
  height : Z;
  cells : list Cell
}.

Record t : Type := mk {
  field : option FieldJson;
  params : option ForestFireParams;
  coords : option (gmap string Z)
}.

End Body.

Inductive JsonBody : Type :=
  | ErrorBody (error : string)
  | SessionIdBody (sessionId : string)
  | SuccessBody.

Inductive Response : Type :=
  | Json (body : JsonBody) (status : Z)
  | EventStream.

(** Modelled from the spec: [generateCoordMap] of [algorithm/algorithm] is not
    part of the sources at hand. The spec's [buildCoordinateIndex] builds the
    "x,y" -> position index of the cells and fails with DuplicateCoordinate if
    two cells share a coordinate; [None] stands for the failure. A hole of
    the array has no coordinate and gets no entry. *)
Fixpoint buildCoordinateIndexFrom (i : Z) (arr : CellArray)
  : option (gmap string Z) :=
  match arr with
  | [] => Some ∅
  | oc :: rest =>
      m ← buildCoordinateIndexFrom (i + 1) rest;
      match oc with
      | None => Some m
      | Some c =>
          match m !! coordKey (x c) (y c) with
          | Some _ => None
          | None => Some (<[ coordKey (x c) (y c) := i ]> m)
          end
      end
  end.

Definition buildCoordinateIndex (arr : CellArray) : option (gmap string Z) :=
  buildCoordinateIndexFrom 0 arr.

(** POST (lines 20-85). [body] is [None] when [request.json()] throws;
    [uuid] is the value of [uuidv4()]; [generateCoordMap] is the imported
    function, [None] where it throws. *)
Definition POST (generateCoordMap : CellArray -> option (gmap string Z))
    (body : option Body.t) (uuid : string) (srv : Server) : Server * Response :=
  match body with
  | None => (srv, Json (ErrorBody "Failed to create session") 500)
  | Some b =>
      match Body.field b, Body.params b, Body.coords b with
      | Some f, Some p, Some coords =>
          let fullCells :=
            reconstruct (Body.width f) (Body.height f) (Body.cells f) coords in
          match generateCoordMap fullCells with
          | Some m =>
              (sessionsSet uuid (mkField (Body.width f) (Body.height f) fullCells m) p srv,
               Json (SessionIdBody uuid) 200)
          | None => (srv, Json (ErrorBody "Failed to create session") 500)
          end
      | _, _, _ => (srv, Json (ErrorBody "Missing field or params") 400)
      end
  end.

(** [!sessionId || !sessions.has(sessionId)]: the query parameter is absent
    ([None]), empty, or no key of the registry. *)
Definition invalidSessionId (sessionId : option string) (srv : Server) : bool :=
  match sessionId with
  | None => true
  | Some id => bool_decide (id = "") || bool_decide (sessions srv !! id = None)
  end.

(** DELETE (lines 160-173). *)
Definition DELETE (sessionId : option string) (srv : Server) : Server * Response :=
  if invalidSessionId sessionId srv
  then (srv, Json (ErrorBody "Invalid session ID") 400)
  else
    match sessionId ≫= (fun id => sessions srv !! id) with
    | None => (srv, Json (ErrorBody "Session not found") 404)
    | Some session =>
        (sessionsDelete (default "" sessionId) (abort session srv),
         Json SuccessBody 200)
    end.

(** GET (lines 87-97 and 151-157): the response, and the session object the
    closures of the new stream capture. The registry is left as it is. *)
Definition GET (sessionId : option string) (srv : Server)
  : Response * option Session :=
  if invalidSessionId sessionId srv
  then (Json (ErrorBody "Invalid session ID") 400, None)
  else
    match sessionId ≫= (fun id => sessions srv !! id) with
    | None => (Json (ErrorBody "Session not found") 404, None)
    | Some session => (EventStream, Some session)
    end.

(** ** The event stream of GET (route.ts, lines 98-149) *)

(** What the stream carries: [data: {"updatedCellsMap": ...}] and
    [event: end]. *)
Inductive Event : Type :=
  | Delta (updatedCellsMap : gmap string Cell)
  | End.

(** Modelled from the spec: [calculateNextGeneration] of
    [algorithm/algorithm] is not part of the sources at hand; one call
    either throws or returns [{ updatedCellsMap, flammableCells }]. The loop
    below takes the results of the successive calls as its input. *)
Inductive EngineResult : Type :=
  | Throws
  | Returns (updatedCellsMap : gmap string Cell) (flammableCells : gset string).

(** What can run while the loop is suspended in its timer: the DELETE handler
    for this session id, or the [cancel()] callback of the stream (the
    consumer went away). *)
Inductive CancelSource : Type := ByDelete | ByTransport.

Record TickInput : Type := mkTick {
  duringWait : list CancelSource;
  engine : EngineResult
}.

(** The state of one stream: whether the stream is no longer readable (the
    runtime closes it before it calls [cancel()], and [controller.close()]
    closes it), the events enqueued so far, and the number of timers that ran
    out, each followed by one engine call. *)
Record StreamState : Type := mkStream {
  closed : bool;
  emitted : list Event;
  ticks : nat
}.

Definition newStream : StreamState := mkStream false [] 0.

Inductive Outcome : Type := Completed | Cancelled | Failed | Running.

(** [setTimeout(resolve, session.params.updateInterval * 1000)] *)
Definition timerDelay (p : ForestFireParams) : Q := (updateInterval p * 1000)%Q.

(** Milliseconds the stream has spent in timers that ran out. *)
Definition elapsed (session : Session) (st : StreamState) : Q :=
  (inject_Z (Z.of_nat (ticks st)) * timerDelay (params session))%Q.

(** [controller.enqueue(...)]: throws a TypeError ([None]) once the stream
    is no longer readable, as [controller.close()] does. *)
Definition enqueue (ev : Event) (st : StreamState) : option StreamState :=
  if closed st then None
  else Some (mkStream (closed st) (emitted st ++ [ev]) (ticks st)).

(** [send] (lines 101-110). *)
Definition send (session : Session) (srv : Server)
    (updatedCellsMap : gmap string Cell) (st : StreamState) : option StreamState :=
  if signalAborted srv session then Some st
  else enqueue (Delta updatedCellsMap) st.

(** [cancel()] of the stream (lines 145-148). *)
Definition streamCancel (sessionId : string) (session : Session)
    (srv : Server) : Server :=
  sessionsDelete sessionId (abort session srv).

Definition interrupt (sessionId : string) (session : Session)
    (s : Server * StreamState) (a : CancelSource) : Server * StreamState :=
  match a with
  | ByDelete => ((DELETE (Some sessionId) s.1).1, s.2)
  | ByTransport =>
      (streamCancel sessionId session s.1,
       mkStream true (emitted s.2) (ticks s.2))
  end.

Definition interrupts (sessionId : string) (session : Session)
    (l : list CancelSource) (s : Server * StreamState) : Server * StreamState :=
  fold_left (interrupt sessionId session) l s.

Inductive TickOutcome : Type :=
  | TickThrew (st : StreamState)
  | TickEnd (st : StreamState)
  | TickMore (st : StreamState).

(** One pass through the loop body (lines 116-136; the same text in both
    variants up to the last statement): the timer runs out whatever happens
    meanwhile, then the engine is called, the delta is sent if it is not
    empty, and the end event is enqueued if nothing is flammable any more. *)
Definition tick (sessionId : string) (session : Session) (t : TickInput)
    (srv : Server) (st : StreamState) : Server * TickOutcome :=
  let s1 := interrupts sessionId session (duringWait t) (srv, st) in
  let srv1 := s1.1 in
  let st1 := mkStream (closed s1.2) (emitted s1.2) (S (ticks s1.2)) in
  match engine t with
  | Throws => (srv1, TickThrew st1)
  | Returns updatedCellsMap flammableCells =>
      match (if decide (0 < size updatedCellsMap)%nat
             then send session srv1 updatedCellsMap st1 else Some st1) with
      | None => (srv1, TickThrew st1)
      | Some st2 =>
          if decide (size flammableCells = 0%nat) then
            match enqueue End st2 with
            | None => (srv1, TickThrew st2)
            | Some st3 => (srv1, TickEnd st3)
            end
          else (srv1, TickMore st2)
      end
  end.

(** The loop of route.ts (lines 115-137): [while (!aborted) { ...; break }].
    [Running] means that the input is used up while the loop is suspended. *)
Fixpoint sseLoop (sessionId : string) (session : Session)
    (inputs : list TickInput) (srv : Server) (st : StreamState)
  : Server * StreamState * Outcome :=
  if signalAborted srv session then (srv, st, Cancelled)
  else
    match inputs with
    | [] => (srv, st, Running)
    | t :: rest =>
        match tick sessionId session t srv st with
        | (srv1, TickThrew st1) => (srv1, st1, Failed)
        | (srv1, TickEnd st1) => (srv1, st1, Completed)
        | (srv1, TickMore st1) => sseLoop sessionId session rest srv1 st1
        end
    end.

(** The loop of the earlier variant (lines 78-102):
    [while (!aborted && !simulationEnded) { ...; simulationEnded = true }]. *)
Fixpoint sseLoopFlag (sessionId : string) (session : Session)
    (inputs : list TickInput) (srv : Server) (st : StreamState)
    (simulationEnded : bool) : Server * StreamState * Outcome :=
  if negb (signalAborted srv session) && negb simulationEnded then
    match inputs with
    | [] => (srv, st, Running)
    | t :: rest =>
        match tick sessionId session t srv st with
        | (srv1, TickThrew st1) => (srv1, st1, Failed)
        | (srv1, TickEnd st1) => sseLoopFlag sessionId session rest srv1 st1 true
        | (srv1, TickMore st1) =>
            sseLoopFlag sessionId session rest srv1 st1 simulationEnded
        end
    end
  else (srv, st, if simulationEnded then Completed else Cancelled).

(** [catch] and [finally] (lines 138-143): [controller.close()] throws when
    the stream is no longer readable, and [sessions.delete] is then not
    reached. *)
Definition finish (sessionId : string) (r : Server * StreamState * Outcome)
  : Server * StreamState * Outcome :=
  match r with
  | (srv, st, Running) => (srv, st, Running)
  | (srv, st, out) =>
      if closed st then (srv, st, out)
      else (sessionsDelete sessionId srv,
            mkStream true (emitted st) (ticks st), out)
  end.

(** [start(controller)] of a stream attached to [session]. The scan
    [findFlammableCells(session.field)] before the loop is taken to return;
    its result only reaches the engine. *)
Definition start (sessionId : string) (session : Session)
    (inputs : list TickInput) (srv : Server) : Server * StreamState * Outcome :=
  finish sessionId (sseLoop sessionId session inputs srv newStream).

Definition startFlag (sessionId : string) (session : Session)
    (inputs : list TickInput) (srv : Server) : Server * StreamState * Outcome :=
  finish sessionId (sseLoopFlag sessionId session inputs srv newStream false).

(** ** Predicates of the statements on the reconstruction *)

(** Whether a string contains a comma. *)
Fixpoint hasComma (s : string) : bool :=
  match s with
  | EmptyString => false
  | String a s' => if decide (a = ","%char) then true else hasComma s'
  end.

(** The cells of the request that the overlay loop does not skip. *)
Definition placed (coords : gmap string Z) (cells : list Cell) : list Cell :=
  filter (fun c => is_Some (coords !! coordKey (x c) (y c))) cells.

(** [coords] sends every supplied cell it knows to the row-major position of
    the cell's own coordinate, inside the box. *)
Definition consistentOn (width height : Z) (coords : gmap string Z)
    (cells : list Cell) : Prop :=
  forall c i, c ∈ cells -> coords !! coordKey (x c) (y c) = Some i ->
    inBox width height (x c) (y c) /\ i = position width height (x c) (y c).

(** The supplied cells are Burning/Empty overrides inside the box. *)
Definition overrides (width height : Z) (cells : list Cell) : Prop :=
  forall c, c ∈ cells -> state c <> T /\ inBox width height (x c) (y c).

(** The supplied cells are Burning/Empty overrides inside the box, and
    [coords] sends each of them to its row-major position. *)
Definition overridesOn (width height : Z) (coords : gmap string Z)
    (cells : list Cell) : Prop :=
  forall c, c ∈ cells ->
    state c <> T /\ inBox width height (x c) (y c) /\
    coords !! coordKey (x c) (y c) = Some (position width height (x c) (y c)).

(** What the data model asks of a dense field built from the supplied
    [cells]: [width * height] entries, every coordinate of the box held by
    exactly one entry, and a tree with [burnTime = 0] at every coordinate
    that no supplied cell has. *)
Definition denseFieldCorrect (width height : Z) (cells : list Cell)
    (arr : CellArray) : Prop :=
  length arr = Z.to_nat (width * height) /\
  (forall cx cy, inBox width height cx cy ->
     exists i : nat,
       (exists c, arr !! i = Some (Some c) /\ x c = cx /\ y c = cy) /\
       (forall j c, arr !! j = Some (Some c) -> x c = cx -> y c = cy -> j = i)) /\
  (forall (i : nat) c, arr !! i = Some (Some c) ->
     (forall c', c' ∈ cells -> ~ (x c' = x c /\ y c' = y c)) ->
     state c = T /\ burnTime c = 0).

(** The round trip: the non-tree cells of the dense field are the supplied
    overrides, the last one supplied at each coordinate, whatever their
    order. *)
Definition roundTrip (width height : Z) (cells : list Cell)
    (arr : CellArray) : Prop :=
  length arr = Z.to_nat (width * height) /\
  (forall c, c ∈ nonTreeCells arr <-> lastSupplied cells (x c) (y c) = Some c) /\
  NoDup (nonTreeCells arr) /\
  (NoDup ((fun c => (x c, y c)) <$> cells) -> nonTreeCells arr ≡ₚ cells).

(** ** Requests, answers and example states of the registry *)

(** The answer the routes give for a session id they do not know. *)
Definition UnknownSession : Response := Json (ErrorBody "Invalid session ID") 400.

(** Repeating the DELETE request [n] times. *)
Definition deleteTimes (n : nat) (id : string) (srv : Server) : Server :=
  Nat.iter n (fun s => (DELETE (Some id) s).1) srv.

Definition exampleParams : ForestFireParams := mkParams (1 # 2).

Definition exampleSession : Session :=
  mkSession (mkField 1 1 [Some (treeCell 0 0)] {[ "0,0" := 0 ]})
            exampleParams {[ "0,0" := 0 ]} 0.

(** A server whose registry holds [exampleSession] under the id "a". *)
Definition exampleServer : Server := mkServer {[ "a" := exampleSession ]} ∅ 1.

(** A request for a field of width 0 and height -3. *)
Definition degenerateBody : Body.t :=
  Body.mk (Some (Body.mkFieldJson 0 (-3) [])) (Some exampleParams) (Some ∅).

(** A request for a 2 x 2 field with a burning cell at (5,5), outside the
    box, and the row-major [coords] of the box. *)
Definition outsideBody : Body.t :=
  Body.mk (Some (Body.mkFieldJson 2 2 [mkCell 5 5 B 0])) (Some exampleParams)
          (Some (rowMajorCoords 2 2)).

(** ** Predicates of the statements on the stream *)

(** The state a tick ends in, whatever its outcome. *)
Definition tickState (o : TickOutcome) : StreamState :=
  match o with TickThrew st | TickEnd st | TickMore st => st end.

(** The controller of the registry entry of [id], if there is one. *)
Definition controllerAt (id : string) (srv : Server) : gset nat :=
  match sessions srv !! id with
  | Some s => {[ abortController s ]}
  | None => ∅
  end.

(** From [srv] to [srv'] only the entry of [id] may have gone, and only the
    signal of [session] or of that entry may have been aborted. *)
Definition evolves (id : string) (session : Session) (srv srv' : Server) : Prop :=
  (forall id', id' <> id -> sessions srv' !! id' = sessions srv !! id') /\
  (sessions srv' !! id = sessions srv !! id \/ sessions srv' !! id = None) /\
  abortedSignals srv ⊆ abortedSignals srv' /\
  abortedSignals srv' ⊆
    abortedSignals srv ∪ {[ abortController session ]} ∪ controllerAt id srv.

(** A stream that is no longer readable has no registry entry left. *)
Definition released (id : string) (srv : Server) (st : StreamState) : Prop :=
  closed st = true -> sessions srv !! id = None.

(** A tick during which nothing cancels and after which something is still
    flammable. *)
Definition quietTick (t : TickInput) : Prop :=
  duringWait t = [] /\
  exists upd fl, engine t = Returns upd fl /\ size fl <> 0%nat.

(** The delta events of a run of ticks. *)
Definition deltasOf (l : list TickInput) : list Event :=
  omap (fun t => match engine t with
                 | Returns upd _ =>
                     if decide (0 < size upd)%nat then Some (Delta upd) else None
                 | Throws => None
                 end) l.

(** The events of a stream: deltas that are not empty, then the end event
    exactly when the loop ends by completion. *)
Definition nonEmptyDelta (ev : Event) : Prop :=
  exists m, ev = Delta m /\ (0 < size m)%nat.

(** What C4 asks of one tick: if a cancellation fires during its wait, the
    loop stops there, without letting the timer run out and calling the
    engine. *)
Definition cancelPreemptsWait (id : string) (session : Session)
    (srv : Server) (st : StreamState) (t : TickInput) : Prop :=
  signalAborted srv session = false ->
  signalAborted (interrupts id session (duringWait t) (srv, st)).1 session = true ->
  ticks (sseLoop id session [t] srv st).1.2 = ticks st.

(** ** Further definitions: the overlay for any [coords] *)

(** 2^32 - 1: the array indices of JavaScript are the integers from 0 up to,
    and not including, this number. *)
Definition arrayIndexLimit : Z := 4294967295.

(** The supplied cell that the overlay loop writes last at index [p]. *)
Definition lastAt (coords : gmap string Z) (cells : list Cell) (p : Z)
  : option Cell :=
  last (filter (fun c => coords !! coordKey (x c) (y c) = Some p) cells).

(** ** Further definitions: the canvas lookup *)

(** [getCellAtPosition] of the canvas component (Canvas, lines 208-231),
    from the world coordinates on: [worldX] and [worldY] are the integers
    that [Math.floor((x - offsetX) / (CELL_SIZE * scale))] and its
    counterpart for [y] give for the pointer. [None] stands for [null] (and
    for the [undefined] of an index outside the array). *)
Definition getCellAtWorld (f : Field) (worldX worldY : Z) : option Cell :=
  let halfArea := width f / 2 in
  if decide (Z.abs worldX > halfArea \/ Z.abs worldY > halfArea) then None
  else
    match coordMap f !! coordKey worldX worldY with
    | Some index => arrayGet (cells f) index
    | None => None
    end.

(** ** Further definitions: the handlers taken together *)

(** A stream that a GET has opened: the id and the session object its
    closures hold, and whether it is no longer readable. *)
Record StreamRef : Type := mkStreamRef {
  streamId : string;
  streamSession : Session;
  streamClosed : bool
}.

(** The server state together with the streams opened so far. *)
Record System : Type := mkSystem {
  server : Server;
  streams : list StreamRef
}.

Definition initialSystem : System := mkSystem emptyServer [].

(** What can run, one at a time: the three handlers, the [cancel()] of the
    [k]-th stream (its consumer went away; the runtime closes the stream
    first) and the [finally] block of the [k]-th stream (its loop has ended;
    [controller.close()] throws on a stream that is no longer readable, and
    [sessions.delete] is then not reached). [cancel()] can still be called
    after [controller.close()] while events are queued, so it may run at any
    time. *)
Inductive Action : Type :=
  | DoPOST (body : option Body.t) (uuid : string)
  | DoGET (sessionId : option string)
  | DoDELETE (sessionId : option string)
  | DoCancel (k : nat)
  | DoFinally (k : nat).

Definition act (generateCoordMap : CellArray -> option (gmap string Z))
    (sys : System) (a : Action) : System :=
  match a with
  | DoPOST body uuid =>
      mkSystem (POST generateCoordMap body uuid (server sys)).1 (streams sys)
  | DoGET sessionId =>
      match (GET sessionId (server sys)).2 with
      | Some session =>
          mkSystem (server sys)
            (streams sys ++ [mkStreamRef (default "" sessionId) session false])
      | None => sys
      end
  | DoDELETE sessionId =>
      mkSystem (DELETE sessionId (server sys)).1 (streams sys)
  | DoCancel k =>
      match streams sys !! k with
      | Some r =>
          mkSystem (streamCancel (streamId r) (streamSession r) (server sys))
            (<[ k := mkStreamRef (streamId r) (streamSession r) true ]> (streams sys))
      | None => sys
      end
  | DoFinally k =>
      match streams sys !! k with
      | Some r =>
          if streamClosed r then sys
          else
            mkSystem (sessionsDelete (streamId r) (server sys))
              (<[ k := mkStreamRef (streamId r) (streamSession r) true ]> (streams sys))
      | None => sys
      end
  end.

Definition run (generateCoordMap : CellArray -> option (gmap string Z))
    (actions : list Action) (sys : System) : System :=
  fold_left (act generateCoordMap) actions sys.

(** The registry and the signals stay in step: every controller in use was
    allocated, no registered session is aborted, two registry entries never
    share a controller, and the controller of an opened stream is registered
    under the id of that stream or not at all. *)
Definition coherent (sys : System) : Prop :=
  (forall c, c ∈ abortedSignals (server sys) -> (c < controllers (server sys))%nat) /\
  (forall id s, sessions (server sys) !! id = Some s ->
     (abortController s < controllers (server sys))%nat /\
     abortController s ∉ abortedSignals (server sys)) /\
  (forall id id' s s', sessions (server sys) !! id = Some s ->
     sessions (server sys) !! id' = Some s' ->
     abortController s = abortController s' -> id = id') /\
  (forall r, r ∈ streams sys ->
     (abortController (streamSession r) < controllers (server sys))%nat /\
     forall id s, sessions (server sys) !! id = Some s ->
       abortController s = abortController (streamSession r) -> id = streamId r).
Example treeCells_2_3 :
  treeCells 2 3 =
  [Some (treeCell (-1) (-1)); Some (treeCell 0 (-1));
   Some (treeCell (-1) 0); Some (treeCell 0 0);
   Some (treeCell (-1) 1); Some (treeCell 0 1)].
Proof. reflexivity. Qed.

Example reconstruct_small :
  reconstruct 2 2 [mkCell 0 (-1) B 0; mkCell 5 5 E 0] (rowMajorCoords 2 2) =
  [Some (treeCell (-1) (-1)); Some (mkCell 0 (-1) B 0);
   Some (treeCell (-1) 0); Some (treeCell 0 0)].
Proof. vm_compute. reflexivity. Qed.

Example reconstruct_extends :
  reconstruct 1 1 [mkCell 0 0 B 0] {[ "0,0" := 3 ]} =
  [Some (treeCell 0 0); None; None; Some (mkCell 0 0 B 0)].
Proof. vm_compute. reflexivity. Qed.

(** ** Arithmetic of the bounding box *)

Lemma endOf_pos (size : Z) : 0 <= size -> endOf size = size - size / 2.
Proof.
  intros Hs. unfold endOf, halfOf.
  rewrite Z.rem_mod_nonneg by lia.
  case_decide; Z.to_euclidean_division_equations; lia.
Qed.

Lemma span_pos (size : Z) : 0 <= size -> endOf size - startOf size = size.
Proof.
  intros Hs. rewrite endOf_pos by done. unfold startOf, halfOf. lia.
Qed.

Lemma span_neg (size : Z) : size <= 0 -> endOf size - startOf size <= 0.
Proof.
  intros Hs. unfold endOf, startOf, halfOf.
  case_decide as Hr; revert Hr; Z.to_euclidean_division_equations; lia.
Qed.

Lemma position_range (width height cx cy : Z) :
  inBox width height cx cy ->
  0 <= position width height cx cy < width * height.
Proof. intros [Hx Hy]. unfold position. nia. Qed.

Lemma position_inj (width height cx cy cx' cy' : Z) :
  inBox width height cx cy -> inBox width height cx' cy' ->
  position width height cx cy = position width height cx' cy' ->
  cx = cx' /\ cy = cy'.
Proof.
  intros [Hx Hy] [Hx' Hy']. unfold position. intros Heq.
  assert (cy = cy') by nia. subst. split; [nia | done].
Qed.

Lemma position_surj (width height i : Z) :
  0 <= i < width * height -> 0 < width ->
  inBox width height (i mod width - width / 2) (i / width - height / 2) /\
  position width height (i mod width - width / 2) (i / width - height / 2) = i.
Proof.
  intros Hi Hw. unfold inBox, position.
  pose proof (Z.mod_pos_bound i width Hw).
  pose proof (Z.div_mod i width ltac:(lia)).
  assert (0 <= i / width < height).
  { split; [apply Z.div_pos; lia |].
    apply Z.div_lt_upper_bound; [lia | nia]. }
  repeat split; lia.
Qed.

(** ** The tree-only array of lines 51-56 *)

Lemma lookup_concat_uniform {A} (rows : list (list A)) (n r c : nat) :
  Forall (fun l => length l = n) rows -> (c < n)%nat ->
  concat rows !! (r * n + c)%nat = rows !! r ≫= (fun l => l !! c).
Proof.
  intros Hrows Hc. revert r.
  induction Hrows as [| row rows Hlen _ IH]; intros r; [done |].
  destruct r as [| r]; simpl.
  - rewrite lookup_app_l by lia. done.
  - rewrite lookup_app_r by lia.
    replace (n + r * n + c - length row)%nat with (r * n + c)%nat by lia.
    apply IH.
Qed.

Lemma length_concat_uniform {A} (rows : list (list A)) (n : nat) :
  Forall (fun l => length l = n) rows ->
  length (concat rows) = (length rows * n)%nat.
Proof.
  induction 1 as [| row rows Hlen _ IH]; [done |].
  simpl. rewrite length_app, IH. lia.
Qed.

Lemma treeCells_rows (width height : Z) :
  treeCells width height =
  concat (treeRow width <$> forRange (startOf height) (endOf height)).
Proof. reflexivity. Qed.

Lemma length_treeRow (width cy : Z) :
  length (treeRow width cy) = Z.to_nat (endOf width - startOf width).
Proof. unfold treeRow, forRange. by rewrite length_fmap, length_seqZ. Qed.

Lemma treeRows_uniform (width height : Z) :
  Forall (fun l => length l = Z.to_nat (endOf width - startOf width))
         (treeRow width <$> forRange (startOf height) (endOf height)).
Proof.
  apply Forall_fmap, Forall_forall. intros cy _. apply length_treeRow.
Qed.

Lemma length_treeCells (width height : Z) :
  length (treeCells width height) =
  (Z.to_nat (endOf height - startOf height) *
   Z.to_nat (endOf width - startOf width))%nat.
Proof.
  rewrite treeCells_rows.
  rewrite (length_concat_uniform _ _ (treeRows_uniform width height)).
  unfold forRange. by rewrite length_fmap, length_seqZ.
Qed.

Lemma length_treeCells_pos (width height : Z) :
  0 <= width -> 0 <= height ->
  length (treeCells width height) = Z.to_nat (width * height).
Proof.
  intros Hw Hh. rewrite length_treeCells, !span_pos by done. nia.
Qed.

Lemma treeCells_empty (width height : Z) :
  width <= 0 \/ height <= 0 -> treeCells width height = [].
Proof.
  intros Hs. apply length_zero_iff_nil. rewrite length_treeCells.
  destruct Hs as [Hs | Hs]; apply span_neg in Hs; lia.
Qed.

Lemma treeCells_lookup (width height cx cy : Z) :
  0 < width -> 0 < height -> inBox width height cx cy ->
  treeCells width height !! Z.to_nat (position width height cx cy) =
  Some (Some (treeCell cx cy)).
Proof.
  intros Hw Hh [Hx Hy].
  replace (Z.to_nat (position width height cx cy))
    with (Z.to_nat (cy + height / 2) * Z.to_nat (endOf width - startOf width)
          + Z.to_nat (cx + width / 2))%nat
    by (rewrite span_pos by lia; unfold position; nia).
  rewrite treeCells_rows.
  rewrite (lookup_concat_uniform _ _ _ _ (treeRows_uniform width height))
    by (rewrite span_pos by lia; lia).
  unfold forRange at 1. rewrite list_lookup_fmap, lookup_seqZ_lt
    by (rewrite span_pos by lia; lia).
  simpl. unfold treeRow, forRange.
  rewrite list_lookup_fmap, lookup_seqZ_lt by (rewrite span_pos by lia; lia).
  simpl. do 3 f_equal; unfold startOf, halfOf; lia.
Qed.

Lemma arrayGet_Some (arr : CellArray) (i : Z) (c : Cell) :
  arrayGet arr i = Some c <-> 0 <= i /\ arr !! Z.to_nat i = Some (Some c).
Proof.
  unfold arrayGet. case_decide as Hi.
  - destruct (arr !! Z.to_nat i) as [[c' |] |]; simpl;
      split; [intros [= ->] | intros [_ [= ->]]
             | intros [=] | intros [_ [=]]
             | intros [=] | intros [_ [=]] ]; auto.
  - split; [intros [=] | intros [? _]; lia].
Qed.

Lemma treeCells_invariant (width height : Z) :
  0 < width -> 0 < height ->
  fieldInvariant width height (treeCells width height).
Proof.
  intros Hw Hh. split; [apply length_treeCells_pos; lia |].
  intros cx cy Hbox. exists (treeCell cx cy). split; [| done].
  apply arrayGet_Some. split; [apply position_range in Hbox; lia |].
  by apply treeCells_lookup.
Qed.

(** ** Array writes and the overlay loop *)

Lemma length_arraySet_inside (arr : CellArray) (i : Z) (c : Cell) :
  (Z.to_nat i < length arr)%nat -> length (arraySet arr i c) = length arr.
Proof.
  intros Hi. unfold arraySet. case_decide; [done |].
  simpl. case_decide; [apply length_insert | lia].
Qed.

Lemma arrayGet_arraySet (arr : CellArray) (i j : Z) (c : Cell) :
  0 <= i -> (Z.to_nat i < length arr)%nat ->
  arrayGet (arraySet arr i c) j =
  if decide (i = j) then Some c else arrayGet arr j.
Proof.
  intros Hi Hlen. unfold arraySet, arrayGet.
  rewrite (decide_False (P := i < 0)) by lia. simpl.
  rewrite (decide_True (P := (Z.to_nat i < length arr)%nat)) by done.
  destruct (decide (i = j)) as [<- | Hij].
  - rewrite decide_True by done.
    by rewrite list_lookup_insert_eq.
  - case_decide; [| done].
    rewrite list_lookup_insert_ne by lia. done.
Qed.

Lemma overlayCell_absent (coords : gmap string Z) (arr : CellArray) (c : Cell) :
  coords !! coordKey (x c) (y c) = None -> overlayCell coords arr c = arr.
Proof. intros Hc. unfold overlayCell. by rewrite Hc. Qed.

Lemma overlay_cons coords arr c cells :
  overlay coords arr (c :: cells) = overlay coords (overlayCell coords arr c) cells.
Proof. done. Qed.

Lemma lastSupplied_nil cx cy : lastSupplied [] cx cy = None.
Proof. done. Qed.

Lemma lastSupplied_cons (c : Cell) (cells : list Cell) (cx cy : Z) :
  lastSupplied (c :: cells) cx cy =
  match lastSupplied cells cx cy with
  | Some c' => Some c'
  | None => if decide (x c = cx /\ y c = cy) then Some c else None
  end.
Proof.
  unfold lastSupplied. rewrite filter_cons.
  case_decide as Hc; [| by destruct (last _)].
  rewrite last_cons. by destruct (last _).
Qed.

Lemma lastSupplied_Some (cells : list Cell) (cx cy : Z) (c : Cell) :
  lastSupplied cells cx cy = Some c -> c ∈ cells /\ x c = cx /\ y c = cy.
Proof.
  unfold lastSupplied. intros Hl. apply last_Some_elem_of in Hl.
  apply list_elem_of_filter in Hl. tauto.
Qed.

Lemma lastSupplied_None (cells : list Cell) (cx cy : Z) :
  (forall c, c ∈ cells -> ~ (x c = cx /\ y c = cy)) ->
  lastSupplied cells cx cy = None.
Proof.
  intros Hno. unfold lastSupplied. apply last_None.
  destruct (filter _ cells) as [| c l] eqn:Hf; [done |].
  assert (Hc : c ∈ filter (fun c => x c = cx /\ y c = cy) cells)
    by (rewrite Hf; left).
  apply list_elem_of_filter in Hc as [Hxy Hin]. by destruct (Hno c Hin).
Qed.

Lemma consistentOn_cons width height coords c cells :
  consistentOn width height coords (c :: cells) ->
  consistentOn width height coords cells.
Proof. intros Hc c' i Hin. apply Hc. by right. Qed.

Lemma overlay_consistent (width height : Z) (coords : gmap string Z)
    (cells : list Cell) (arr : CellArray) :
  length arr = Z.to_nat (width * height) ->
  consistentOn width height coords cells ->
  length (overlay coords arr cells) = length arr /\
  forall cx cy, inBox width height cx cy ->
    arrayGet (overlay coords arr cells) (position width height cx cy) =
    match lastSupplied (placed coords cells) cx cy with
    | Some c => Some c
    | None => arrayGet arr (position width height cx cy)
    end.
Proof.
  revert arr. induction cells as [| c cells IH]; intros arr Hlen Hcons.
  { split; [done |]. intros cx cy _. done. }
  rewrite overlay_cons. unfold placed. rewrite filter_cons. fold (placed coords cells).
  destruct (coords !! coordKey (x c) (y c)) as [i |] eqn:Hkey.
  - destruct (Hcons c i ltac:(left) Hkey) as [Hbox ->].
    pose proof (position_range _ _ _ _ Hbox) as Hrange.
    assert (Hin : (Z.to_nat (position width height (x c) (y c)) < length arr)%nat)
      by lia.
    unfold overlayCell. rewrite Hkey.
    destruct (IH (arraySet arr (position width height (x c) (y c)) c)) as [IHlen IHget].
    { rewrite length_arraySet_inside; done. }
    { by eapply consistentOn_cons. }
    rewrite length_arraySet_inside in IHlen by done.
    split; [done |]. intros cx cy Hb.
    rewrite IHget by done. rewrite decide_True by (by eexists).
    rewrite lastSupplied_cons.
    destruct (lastSupplied (placed coords cells) cx cy); [done |].
    rewrite arrayGet_arraySet by (done || lia).
    case_decide as Hpos.
    + apply position_inj in Hpos as [<- <-]; [| done..].
      by rewrite decide_True.
    + rewrite decide_False; [done |]. intros [<- <-]. done.
  - rewrite overlayCell_absent by done.
    rewrite decide_False by (by intros [? [=]]).
    apply IH; [done |]. by eapply consistentOn_cons.
Qed.

(** ** The Field invariant after reconstruction *)

Lemma reconstruct_invariant (width height : Z) (cells : list Cell)
    (coords : gmap string Z) :
  0 < width -> 0 < height -> consistentOn width height coords cells ->
  fieldInvariant width height (reconstruct width height cells coords).
Proof.
  intros Hw Hh Hcons. unfold reconstruct.
  destruct (overlay_consistent width height coords cells (treeCells width height))
    as [Hlen Hget]; [apply length_treeCells_pos; lia | done |].
  split; [rewrite Hlen; apply length_treeCells_pos; lia |].
  intros cx cy Hbox. rewrite Hget by done.
  destruct (lastSupplied _ cx cy) as [c |] eqn:Hlast.
  - apply lastSupplied_Some in Hlast as (_ & ? & ?). by exists c.
  - by apply treeCells_invariant.
Qed.

Lemma fieldInvariant_lookup (width height : Z) (arr : CellArray)
    (i : nat) (oc : option Cell) :
  0 < width -> fieldInvariant width height arr -> arr !! i = Some oc ->
  exists c, oc = Some c /\ inBox width height (x c) (y c) /\
            Z.to_nat (position width height (x c) (y c)) = i.
Proof.
  intros Hw [Hlen Hinv] Hi.
  pose proof (lookup_lt_Some _ _ _ Hi) as Hlt.
  destruct (position_surj width height (Z.of_nat i)) as [Hbox Hpos]; [lia | done |].
  destruct (Hinv _ _ Hbox) as (c & Hget & Hx & Hy).
  rewrite Hpos in Hget. apply arrayGet_Some in Hget as [_ Hget].
  rewrite Nat2Z.id in Hget. rewrite Hi in Hget. injection Hget as ->.
  exists c. split; [done |]. rewrite Hx, Hy. split; [done |].
  rewrite Hpos. apply Nat2Z.id.
Qed.

Lemma fieldInvariant_NoDup (width height : Z) (arr : CellArray) :
  0 < width -> fieldInvariant width height arr -> NoDup (omap id arr).
Proof.
  intros Hw Hinv.
  assert (Harr : Some <$> omap id arr = arr).
  { assert (Hall : Forall (fun oc => is_Some oc) arr).
    { apply Forall_lookup. intros i oc Hi.
      destruct (fieldInvariant_lookup _ _ _ _ _ Hw Hinv Hi) as (c & -> & _).
      by eexists. }
    clear Hinv. induction Hall as [| oc l [c ->] _ IH]; [done |].
    cbn. f_equal. apply IH. }
  apply (NoDup_fmap_1 Some). rewrite Harr.
  apply NoDup_alt. intros i j oc Hi Hj.
  destruct (fieldInvariant_lookup _ _ _ _ _ Hw Hinv Hi) as (c & -> & _ & <-).
  destruct (fieldInvariant_lookup _ _ _ _ _ Hw Hinv Hj) as (c' & [= <-] & _ & <-).
  done.
Qed.

Lemma elem_of_nonTreeCells (arr : CellArray) (c : Cell) :
  c ∈ nonTreeCells arr <-> state c <> T /\ exists i, arr !! i = Some (Some c).
Proof.
  unfold nonTreeCells. rewrite list_elem_of_filter, list_elem_of_omap.
  split.
  - intros (Hs & oc & Hin & Hoc). simpl in Hoc. subst oc.
    split; [done |]. by apply list_elem_of_lookup.
  - intros (Hs & i & Hi). split; [done |]. exists (Some c).
    split; [by eapply list_elem_of_lookup_2 | done].
Qed.

Lemma overridesOn_consistent width height coords cells :
  overridesOn width height coords cells ->
  consistentOn width height coords cells.
Proof.
  intros Hov c i Hin Hkey. destruct (Hov c Hin) as (_ & Hbox & Hpos).
  split; [done | congruence].
Qed.

Lemma overridesOn_placed width height coords cells :
  overridesOn width height coords cells -> placed coords cells = cells.
Proof.
  intros Hov. unfold placed. induction cells as [| c cells IH]; [done |].
  rewrite filter_cons_True.
  - f_equal. apply IH. intros c' Hin. apply Hov. by right.
  - destruct (Hov c ltac:(left)) as (_ & _ & ->). by eexists.
Qed.

Lemma lastSupplied_NoDup (cells : list Cell) (c : Cell) :
  NoDup ((fun c => (x c, y c)) <$> cells) -> c ∈ cells ->
  lastSupplied cells (x c) (y c) = Some c.
Proof.
  induction cells as [| c' cells IH]; intros Hnd Hin; [by inversion Hin |].
  rewrite fmap_cons in Hnd. apply NoDup_cons in Hnd as [Hnotin Hnd].
  rewrite lastSupplied_cons.
  apply elem_of_cons in Hin as [-> | Hin].
  - rewrite lastSupplied_None, decide_True; [done.. |].
    intros c Hc [Hx Hy]. apply Hnotin.
    apply list_elem_of_fmap. exists c. split; [by rewrite Hx, Hy | done].
  - by rewrite IH.
Qed.

(** ** Coordinate keys and the row-major [coords] object *)

Lemma hasComma_pretty_N_go (n : N) (s : string) :
  hasComma s = false -> hasComma (pretty_N_go n s) = false.
Proof.
  revert s. induction (N.lt_wf_0 n) as [n _ IH]; intros s Hs.
  destruct (decide (n = 0)%N) as [-> | Hn]; [by rewrite pretty_N_go_0 |].
  rewrite pretty_N_go_step by lia.
  apply IH; [apply N.div_lt; lia |].
  simpl. unfold pretty_N_char. by repeat case_match.
Qed.

Lemma hasComma_pretty_N (n : N) : hasComma (pretty n) = false.
Proof.
  unfold pretty, pretty_N. case_decide; [done |].
  by apply hasComma_pretty_N_go.
Qed.

Lemma hasComma_pretty_Z (z : Z) : hasComma (pretty z) = false.
Proof.
  destruct z as [| p | p]; [done | apply hasComma_pretty_N |].
  unfold pretty, pretty_Z. simpl. apply hasComma_pretty_N.
Qed.

Lemma split_at_comma (s1 s2 t1 t2 : string) :
  hasComma s1 = false -> hasComma s2 = false ->
  s1 +:+ "," +:+ t1 = s2 +:+ "," +:+ t2 -> s1 = s2 /\ t1 = t2.
Proof.
  revert s2. induction s1 as [| a s1 IH]; intros [| b s2]; cbn.
  - intros _ _ Heq. injection Heq as Heq. by subst.
  - intros _ Hb Heq. injection Heq as Hc _. subst b.
    by rewrite decide_True in Hb.
  - intros Ha _ Heq. injection Heq as Hc _. subst a.
    by rewrite decide_True in Ha.
  - intros Ha Hb Heq. injection Heq as Hc Heq. subst b.
    case_decide; [done |].
    destruct (IH s2 Ha Hb Heq) as [-> ->]. done.
Qed.

Lemma coordKey_inj (cx cy cx' cy' : Z) :
  coordKey cx cy = coordKey cx' cy' -> cx = cx' /\ cy = cy'.
Proof.
  unfold coordKey. intros Heq.
  apply split_at_comma in Heq as [Hx Hy]; [| apply hasComma_pretty_Z..].
  split; by apply (inj pretty).
Qed.

Lemma elem_of_boxCoords (width height cx cy : Z) :
  0 <= width -> 0 <= height ->
  (cx, cy) ∈ boxCoords width height <-> inBox width height cx cy.
Proof.
  intros Hw Hh. unfold boxCoords, forRange, inBox.
  rewrite list_elem_of_bind. setoid_rewrite list_elem_of_bind.
  setoid_rewrite list_elem_of_singleton. setoid_rewrite elem_of_seqZ.
  rewrite !span_pos by done. unfold startOf, halfOf.
  split.
  - intros (cy' & (cx' & [= -> ->] & Hx) & Hy). lia.
  - intros [Hx Hy]. exists cy. split; [| lia]. exists cx. split; [done | lia].
Qed.

Lemma rowMajorCoords_inside (width height cx cy : Z) :
  0 <= width -> 0 <= height -> inBox width height cx cy ->
  rowMajorCoords width height !! coordKey cx cy =
  Some (position width height cx cy).
Proof.
  intros Hw Hh Hbox. unfold rowMajorCoords.
  apply elem_of_list_to_map_1'.
  - intros p Hin. apply list_elem_of_fmap in Hin as ([cx' cy'] & [= Hkey ->] & _).
    simpl in *. apply coordKey_inj in Hkey as [-> ->]. done.
  - apply list_elem_of_fmap. exists (cx, cy). split; [done |].
    by apply elem_of_boxCoords.
Qed.

Lemma rowMajorCoords_outside (width height cx cy : Z) :
  0 <= width -> 0 <= height -> ~ inBox width height cx cy ->
  rowMajorCoords width height !! coordKey cx cy = None.
Proof.
  intros Hw Hh Hbox. unfold rowMajorCoords.
  apply not_elem_of_list_to_map_1. rewrite <- list_fmap_compose.
  intros Hin. apply list_elem_of_fmap in Hin as ([cx' cy'] & Hkey & Hin).
  simpl in Hkey. apply coordKey_inj in Hkey as [-> ->].
  by apply elem_of_boxCoords in Hin.
Qed.

Lemma rowMajorCoords_consistent (width height : Z) (cells : list Cell) :
  0 <= width -> 0 <= height ->
  consistentOn width height (rowMajorCoords width height) cells.
Proof.
  intros Hw Hh c i _ Hkey.
  destruct (decide (inBox width height (x c) (y c))) as [Hbox | Hbox].
  - rewrite rowMajorCoords_inside in Hkey by done. split; congruence.
  - rewrite rowMajorCoords_outside in Hkey by done. done.
Qed.

(** ** What the reconstructed field contains *)

Lemma elem_of_placed coords cells c : c ∈ placed coords cells -> c ∈ cells.
Proof. unfold placed. rewrite list_elem_of_filter. tauto. Qed.

Lemma reconstruct_get (width height : Z) (cells : list Cell)
    (coords : gmap string Z) (cx cy : Z) :
  0 < width -> 0 < height -> consistentOn width height coords cells ->
  inBox width height cx cy ->
  arrayGet (reconstruct width height cells coords) (position width height cx cy) =
  Some (default (treeCell cx cy) (lastSupplied (placed coords cells) cx cy)).
Proof.
  intros Hw Hh Hcons Hbox. unfold reconstruct.
  destruct (overlay_consistent width height coords cells (treeCells width height))
    as [_ Hget]; [apply length_treeCells_pos; lia | done |].
  rewrite Hget by done. destruct (lastSupplied _ cx cy); [done |].
  simpl. apply arrayGet_Some.
  split; [apply position_range in Hbox; lia | by apply treeCells_lookup].
Qed.

Lemma length_reconstruct (width height : Z) (cells : list Cell)
    (coords : gmap string Z) :
  0 < width -> 0 < height -> consistentOn width height coords cells ->
  length (reconstruct width height cells coords) = Z.to_nat (width * height).
Proof. intros Hw Hh Hcons. by apply reconstruct_invariant. Qed.

Lemma reconstruct_entry (width height : Z) (cells : list Cell)
    (coords : gmap string Z) (i : nat) (c : Cell) :
  0 < width -> 0 < height -> consistentOn width height coords cells ->
  reconstruct width height cells coords !! i = Some (Some c) ->
  inBox width height (x c) (y c) /\
  i = Z.to_nat (position width height (x c) (y c)) /\
  c = default (treeCell (x c) (y c))
              (lastSupplied (placed coords cells) (x c) (y c)).
Proof.
  intros Hw Hh Hcons Hi.
  pose proof (reconstruct_invariant _ _ _ _ Hw Hh Hcons) as Hinv.
  destruct (fieldInvariant_lookup _ _ _ _ _ Hw Hinv Hi) as (c' & [= <-] & Hbox & Hpos).
  split; [done |]. split; [done |].
  pose proof (reconstruct_get _ _ _ _ _ _ Hw Hh Hcons Hbox) as Hget.
  apply arrayGet_Some in Hget as [_ Hget].
  rewrite Hpos, Hi in Hget. by injection Hget.
Qed.

Lemma overlay_untouched (coords : gmap string Z) (cells : list Cell)
    (arr : CellArray) (p : Z) :
  (forall c, c ∈ cells -> coords !! coordKey (x c) (y c) <> Some p) ->
  arrayGet (overlay coords arr cells) p = arrayGet arr p.
Proof.
  revert arr. induction cells as [| c cells IH]; intros arr Hno; [done |].
  rewrite overlay_cons, IH by (intros c' Hin; apply Hno; by right).
  unfold overlayCell.
  destruct (coords !! coordKey (x c) (y c)) as [i |] eqn:Hkey; [| done].
  assert (Hip : i <> p) by (intros ->; by apply (Hno c ltac:(left))).
  unfold arrayGet, arraySet.
  case_decide as Hp; [| done].
  destruct (decide (i < 0)) as [Hneg | Hpos]; [done |]. simpl.
  destruct (decide (Z.to_nat i < length arr)%nat) as [Hin | Hout].
  - rewrite list_lookup_insert_ne by lia. done.
  - destruct (decide (Z.to_nat p < length arr)%nat) as [Hpin | Hpout].
    + by rewrite lookup_app_l.
    + rewrite lookup_app_r, (lookup_ge_None_2 arr) by lia. simpl.
      destruct (decide (Z.to_nat p - length arr < Z.to_nat i - length arr)%nat).
      * rewrite lookup_app_l by (rewrite length_replicate; lia).
        rewrite lookup_replicate_2 by lia. done.
      * rewrite lookup_ge_None_2; [done |].
        rewrite length_app, length_replicate. simpl. lia.
Qed.

Lemma lastSupplied_Permutation (cells cells' : list Cell) (cx cy : Z) :
  NoDup ((fun c => (x c, y c)) <$> cells) -> cells' ≡ₚ cells ->
  lastSupplied cells' cx cy = lastSupplied cells cx cy.
Proof.
  intros Hnd Hperm.
  assert (Hnd' : NoDup ((fun c => (x c, y c)) <$> cells'))
    by (by rewrite Hperm).
  destruct (lastSupplied cells cx cy) as [c |] eqn:Hlast.
  - apply lastSupplied_Some in Hlast as (Hin & <- & <-).
    apply lastSupplied_NoDup; [done | by rewrite Hperm].
  - apply lastSupplied_None. intros c Hin [<- <-].
    rewrite Hperm in Hin. by rewrite lastSupplied_NoDup in Hlast.
Qed.

Lemma reconstruct_Permutation (width height : Z) (cells cells' : list Cell)
    (coords : gmap string Z) :
  0 < width -> 0 < height -> overridesOn width height coords cells ->
  NoDup ((fun c => (x c, y c)) <$> cells) -> cells' ≡ₚ cells ->
  reconstruct width height cells' coords = reconstruct width height cells coords.
Proof.
  intros Hw Hh Hov Hnd Hperm.
  assert (Hov' : overridesOn width height coords cells').
  { intros c Hin. apply Hov. by rewrite <- Hperm. }
  pose proof (overridesOn_consistent _ _ _ _ Hov) as Hcons.
  pose proof (overridesOn_consistent _ _ _ _ Hov') as Hcons'.
  apply list_eq. intros i.
  destruct (decide (i < Z.to_nat (width * height))%nat) as [Hi | Hi].
  - destruct (position_surj width height (Z.of_nat i)) as [Hbox Hpos]; [lia | done |].
    pose proof (reconstruct_get _ _ _ _ _ _ Hw Hh Hcons Hbox) as Hget.
    pose proof (reconstruct_get _ _ _ _ _ _ Hw Hh Hcons' Hbox) as Hget'.
    rewrite (overridesOn_placed _ _ _ _ Hov) in Hget.
    rewrite (overridesOn_placed _ _ _ _ Hov') in Hget'.
    rewrite (lastSupplied_Permutation cells cells') in Hget' by done.
    apply arrayGet_Some in Hget as [_ Hget].
    apply arrayGet_Some in Hget' as [_ Hget'].
    rewrite Hpos, Nat2Z.id in Hget, Hget'. by rewrite Hget, Hget'.
  - rewrite !lookup_ge_None_2; [done | |]; rewrite length_reconstruct by done; lia.
Qed.

(** ** The overlay for any [coords]: last write wins at every index *)

Lemma arrayGet_arraySet_any (arr : CellArray) (i p : Z) (c : Cell) :
  0 <= p ->
  arrayGet (arraySet arr i c) p =
  if decide (i = p) then Some c else arrayGet arr p.
Proof.
  intros Hp. unfold arraySet.
  destruct (decide (i < 0)) as [Hneg | Hpos].
  { rewrite decide_False by lia. done. }
  simpl. destruct (decide (Z.to_nat i < length arr)%nat) as [Hin | Hout].
  { pose proof (arrayGet_arraySet arr i p c ltac:(lia) Hin) as Hget.
    unfold arraySet in Hget. rewrite decide_False in Hget by done.
    simpl in Hget. by rewrite decide_True in Hget. }
  unfold arrayGet. destruct (decide (0 <= p)) as [_ | ?]; [| lia].
  destruct (decide (i = p)) as [<- | Hne].
  - rewrite lookup_app_r by lia.
    rewrite lookup_app_r by (rewrite length_replicate; lia).
    rewrite length_replicate.
    replace (Z.to_nat i - length arr - (Z.to_nat i - length arr))%nat with 0%nat by lia.
    done.
  - destruct (decide (Z.to_nat p < length arr)%nat) as [Hpin | Hpout].
    + rewrite lookup_app_l by lia. done.
    + rewrite lookup_app_r, (lookup_ge_None_2 arr) by lia. simpl.
      destruct (decide (Z.to_nat p - length arr < Z.to_nat i - length arr)%nat).
      * rewrite lookup_app_l by (rewrite length_replicate; lia).
        rewrite lookup_replicate_2 by lia. done.
      * rewrite lookup_ge_None_2; [done |].
        rewrite length_app, length_replicate. simpl. lia.
Qed.

Lemma length_arraySet (arr : CellArray) (i : Z) (c : Cell) :
  length (arraySet arr i c) =
  if decide (Z.of_nat (length arr) <= i) then S (Z.to_nat i) else length arr.
Proof.
  unfold arraySet. destruct (decide (i < 0)); [by rewrite decide_False by lia |].
  simpl. destruct (decide (Z.to_nat i < length arr)%nat).
  - rewrite decide_False by lia. apply length_insert.
  - rewrite decide_True by lia.
    rewrite !length_app, length_replicate. simpl. lia.
Qed.

Lemma lastAt_cons coords c cells p :
  lastAt coords (c :: cells) p =
  match lastAt coords cells p with
  | Some c' => Some c'
  | None => if decide (coords !! coordKey (x c) (y c) = Some p) then Some c else None
  end.
Proof.
  unfold lastAt. rewrite filter_cons.
  case_decide as Hc; [| by destruct (last _)].
  rewrite last_cons. by destruct (last _).
Qed.

Lemma overlay_last_write (coords : gmap string Z) (cells : list Cell)
    (arr : CellArray) (p : Z) :
  0 <= p ->
  arrayGet (overlay coords arr cells) p =
  match lastAt coords cells p with
  | Some c => Some c
  | None => arrayGet arr p
  end.
Proof.
  intros Hp. revert arr. induction cells as [| c cells IH]; intros arr; [done |].
  rewrite overlay_cons, IH, lastAt_cons.
  destruct (lastAt coords cells p); [done |].
  unfold overlayCell.
  destruct (coords !! coordKey (x c) (y c)) as [i |] eqn:Hkey.
  - rewrite arrayGet_arraySet_any by done.
    destruct (decide (i = p)) as [-> | Hne].
    + by rewrite decide_True.
    + rewrite decide_False; [done |]. by intros [= ->].
  - by rewrite decide_False.
Qed.



(** ** The registry operations *)

Lemma invalidSessionId_known (srv : Server) (id : string) (session : Session) :
  id <> "" -> sessions srv !! id = Some session ->
  invalidSessionId (Some id) srv = false.
Proof.
  intros Hid Hs. unfold invalidSessionId.
  rewrite bool_decide_eq_false_2 by done.
  rewrite bool_decide_eq_false_2 by (by rewrite Hs). done.
Qed.

Lemma invalidSessionId_unknown (srv : Server) (id : string) :
  sessions srv !! id = None -> invalidSessionId (Some id) srv = true.
Proof.
  intros Hs. unfold invalidSessionId.
  rewrite (bool_decide_eq_true_2 (sessions srv !! id = None)) by done.
  apply orb_true_r.
Qed.

Lemma DELETE_known (srv : Server) (id : string) (session : Session) :
  id <> "" -> sessions srv !! id = Some session ->
  DELETE (Some id) srv =
  (sessionsDelete id (abort session srv), Json SuccessBody 200).
Proof.
  intros Hid Hs. unfold DELETE.
  rewrite (invalidSessionId_known _ _ _ Hid Hs). simpl. by rewrite Hs.
Qed.

Lemma DELETE_unknown (srv : Server) (id : string) :
  sessions srv !! id = None -> DELETE (Some id) srv = (srv, UnknownSession).
Proof. intros Hs. unfold DELETE. by rewrite invalidSessionId_unknown. Qed.

Lemma GET_known (srv : Server) (id : string) (session : Session) :
  id <> "" -> sessions srv !! id = Some session ->
  GET (Some id) srv = (EventStream, Some session).
Proof.
  intros Hid Hs. unfold GET.
  rewrite (invalidSessionId_known _ _ _ Hid Hs). simpl. by rewrite Hs.
Qed.

Lemma GET_unknown (srv : Server) (id : string) :
  sessions srv !! id = None -> GET (Some id) srv = (UnknownSession, None).
Proof. intros Hs. unfold GET. by rewrite invalidSessionId_unknown. Qed.

Lemma deleteTimes_unknown (n : nat) (id : string) (srv : Server) :
  sessions srv !! id = None -> deleteTimes n id srv = srv.
Proof.
  intros Hs. induction n as [| n IH]; [done |].
  unfold deleteTimes in *. simpl. rewrite IH. by rewrite DELETE_unknown.
Qed.

(** ** How a stream changes the server state *)

Local Ltac by_union :=
  let c := fresh "c" in
  intros c; rewrite ?elem_of_union, ?elem_of_empty; tauto.

Lemma evolves_refl id session srv : evolves id session srv srv.
Proof. split; [done |]. split; [by left |]. split; by_union. Qed.

Lemma controllerAt_evolves id session srv srv' :
  evolves id session srv srv' -> controllerAt id srv' ⊆ controllerAt id srv.
Proof.
  intros (_ & [Heq | Hnone] & _). all: unfold controllerAt.
  - by rewrite Heq.
  - rewrite Hnone. by_union.
Qed.

Lemma evolves_trans id session srv1 srv2 srv3 :
  evolves id session srv1 srv2 -> evolves id session srv2 srv3 ->
  evolves id session srv1 srv3.
Proof.
  intros H12 H23. pose proof (controllerAt_evolves _ _ _ _ H12) as Hctl.
  destruct H12 as (Ho1 & Hi1 & Hm1 & Hb1), H23 as (Ho2 & Hi2 & Hm2 & Hb2).
  split; [| split; [| split]].
  - intros id' Hne. by rewrite Ho2, Ho1.
  - destruct Hi2 as [-> | ->]; [done | by right].
  - by etrans.
  - intros c Hc. apply Hb2 in Hc. rewrite !elem_of_union in Hc.
    destruct Hc as [[Hc | Hc] | Hc].
    + by apply Hb1.
    + rewrite !elem_of_union. tauto.
    + apply Hctl in Hc. rewrite !elem_of_union. tauto.
Qed.

Lemma sessionsDelete_evolves id session srv :
  evolves id session srv (sessionsDelete id srv).
Proof.
  split; [| split; [| split]]; simpl.
  - intros id' Hne. by apply lookup_delete_ne.
  - right. apply lookup_delete_eq.
  - done.
  - by_union.
Qed.

Lemma streamCancel_evolves id session srv :
  evolves id session srv (streamCancel id session srv).
Proof.
  split; [| split; [| split]]; simpl.
  - intros id' Hne. by apply lookup_delete_ne.
  - right. apply lookup_delete_eq.
  - by_union.
  - by_union.
Qed.

Lemma DELETE_evolves id session srv :
  evolves id session srv (DELETE (Some id) srv).1.
Proof.
  unfold DELETE. destruct (invalidSessionId _ _); [apply evolves_refl |].
  simpl. destruct (sessions srv !! id) as [s |] eqn:Hs; [| apply evolves_refl].
  split; [| split; [| split]]; simpl.
  - intros id' Hne. by apply lookup_delete_ne.
  - right. apply lookup_delete_eq.
  - by_union.
  - unfold controllerAt. rewrite Hs. by_union.
Qed.

Lemma interrupt_evolves id session s a :
  evolves id session s.1 (interrupt id session s a).1.
Proof.
  destruct a; simpl; [apply DELETE_evolves | apply streamCancel_evolves].
Qed.

Lemma interrupt_released id session s a :
  released id s.1 s.2 ->
  released id (interrupt id session s a).1 (interrupt id session s a).2.
Proof.
  intros Hrel. destruct a; unfold released; simpl.
  - intros Hc. destruct (DELETE_evolves id session s.1) as (_ & [-> | ->] & _);
      [by apply Hrel | done].
  - intros _. apply lookup_delete_eq.
Qed.

Lemma interrupts_spec id session l s :
  released id s.1 s.2 ->
  evolves id session s.1 (interrupts id session l s).1 /\
  released id (interrupts id session l s).1 (interrupts id session l s).2 /\
  emitted (interrupts id session l s).2 = emitted s.2 /\
  ticks (interrupts id session l s).2 = ticks s.2.
Proof.
  revert s. induction l as [| a l IH]; intros s Hrel; simpl.
  { split; [apply evolves_refl | done]. }
  destruct (IH (interrupt id session s a)) as (Hev & Hrel' & Hem & Htk);
    [by apply interrupt_released |].
  split; [| split; [done | split]].
  - eapply evolves_trans; [apply interrupt_evolves | done].
  - rewrite Hem. by destruct a.
  - rewrite Htk. by destruct a.
Qed.

Lemma enqueue_Some ev st st' :
  enqueue ev st = Some st' ->
  closed st = false /\ closed st' = false /\
  emitted st' = emitted st ++ [ev] /\ ticks st' = ticks st.
Proof.
  unfold enqueue. destruct (closed st) eqn:Hc; [done |].
  intros [= <-]. done.
Qed.

Lemma send_Some session srv m st st' :
  send session srv m st = Some st' ->
  closed st' = closed st /\ ticks st' = ticks st /\
  (emitted st' = emitted st \/ emitted st' = emitted st ++ [Delta m]).
Proof.
  unfold send. destruct (signalAborted srv session).
  - intros [= <-]. auto.
  - intros Henq. apply enqueue_Some in Henq as (Hc & Hc' & Hem & Htk).
    rewrite Hc, Hc'. auto.
Qed.

Lemma tick_spec id session t srv st :
  released id srv st ->
  evolves id session srv (tick id session t srv st).1 /\
  released id (tick id session t srv st).1 (tickState (tick id session t srv st).2) /\
  ticks (tickState (tick id session t srv st).2) = S (ticks st).
Proof.
  intros Hrel. unfold tick.
  destruct (interrupts_spec id session (duringWait t) (srv, st) Hrel)
    as (Hev & Hrel' & _ & Htk).
  set (s1 := interrupts id session (duringWait t) (srv, st)) in *.
  simpl in Hev, Htk. unfold released in Hrel'.
  set (st1 := mkStream (closed s1.2) (emitted s1.2) (S (ticks s1.2))).
  assert (Hdone : forall st', closed st' = closed s1.2 ->
            ticks st' = S (ticks s1.2) ->
            evolves id session srv s1.1 /\ released id s1.1 st' /\
            ticks st' = S (ticks st)).
  { intros st' Hc Ht. split; [done |]. split; [| by rewrite Ht, Htk].
    unfold released. by rewrite Hc. }
  destruct (engine t) as [| upd fl]; [by apply Hdone |].
  destruct (if decide (0 < size upd)%nat then send session s1.1 upd st1 else Some st1)
    as [st2 |] eqn:Hsend; [| by apply Hdone].
  assert (Hst2 : closed st2 = closed s1.2 /\ ticks st2 = S (ticks s1.2)).
  { destruct (decide (0 < size upd)%nat); [| by injection Hsend as <-].
    apply send_Some in Hsend as (? & ? & _). done. }
  destruct Hst2 as [Hc2 Ht2].
  destruct (decide (size fl = 0%nat)); [| by apply Hdone].
  destruct (enqueue End st2) as [st3 |] eqn:Henq; [| by apply Hdone].
  apply enqueue_Some in Henq as (Hc2' & Hc3 & _ & Ht3).
  apply (Hdone st3); [by rewrite Hc3, <- Hc2, Hc2' | by rewrite Ht3].
Qed.

Lemma sseLoop_spec id session inputs srv st :
  released id srv st ->
  evolves id session srv (sseLoop id session inputs srv st).1.1 /\
  released id (sseLoop id session inputs srv st).1.1
              (sseLoop id session inputs srv st).1.2.
Proof.
  revert srv st. induction inputs as [| t rest IH]; intros srv st Hrel; simpl.
  { destruct (signalAborted srv session); split; done || apply evolves_refl. }
  destruct (signalAborted srv session); [split; done || apply evolves_refl |].
  destruct (tick_spec id session t srv st Hrel) as (Hev & Hrel' & _).
  destruct (tick id session t srv st) as [srv1 [st1 | st1 | st1]]; simpl in *;
    [done | done |].
  destruct (IH srv1 st1 Hrel') as [Hev' Hrel''].
  split; [by eapply evolves_trans | done].
Qed.

(** ** The two loops, quiet ticks and the events of a stream *)

Lemma sseLoopFlag_ended id session inputs srv st :
  sseLoopFlag id session inputs srv st true = (srv, st, Completed).
Proof. destruct inputs; simpl; by rewrite andb_false_r. Qed.

Lemma sseLoopFlag_sseLoop id session inputs srv st :
  sseLoopFlag id session inputs srv st false = sseLoop id session inputs srv st.
Proof.
  revert srv st. induction inputs as [| t rest IH]; intros srv st; simpl.
  { by destruct (signalAborted srv session). }
  destruct (signalAborted srv session); [done |]. simpl.
  destruct (tick id session t srv st) as [srv1 [st1 | st1 | st1]];
    [done | apply sseLoopFlag_ended | apply IH].
Qed.

Lemma interrupts_server id session l srv st st' :
  (interrupts id session l (srv, st)).1 = (interrupts id session l (srv, st')).1.
Proof.
  revert srv st st'. induction l as [| a l IH]; intros srv st st'; [done |].
  simpl. destruct a; simpl; apply IH.
Qed.

Lemma interrupts_stream id session l srv st :
  emitted (interrupts id session l (srv, st)).2 = emitted st /\
  ticks (interrupts id session l (srv, st)).2 = ticks st.
Proof.
  revert srv st. induction l as [| a l IH]; intros srv st; [done |].
  simpl. destruct a; simpl; rewrite (proj1 (IH _ _)), (proj2 (IH _ _)); done.
Qed.

Lemma tick_quiet id session t srv st :
  signalAborted srv session = false -> closed st = false -> quietTick t ->
  tick id session t srv st =
  (srv, TickMore (mkStream false (emitted st ++ deltasOf [t]) (S (ticks st)))).
Proof.
  intros Hab Hcl (Hw & upd & fl & He & Hfl).
  unfold tick, deltasOf. rewrite Hw, He. simpl. rewrite He.
  unfold send, enqueue. simpl. rewrite Hab, Hcl.
  destruct (decide (0 < size upd)%nat); simpl;
    rewrite (decide_False (P := size fl = 0%nat)) by done; [done |].
  by rewrite app_nil_r.
Qed.

Lemma sseLoop_quiet id session pre rest srv st :
  signalAborted srv session = false -> closed st = false ->
  Forall quietTick pre ->
  sseLoop id session (pre ++ rest) srv st =
  sseLoop id session rest srv
    (mkStream false (emitted st ++ deltasOf pre) (ticks st + length pre)).
Proof.
  intros Hab Hcl Hpre. revert st Hcl.
  induction Hpre as [| t pre Ht _ IH]; intros st Hcl.
  { simpl. rewrite app_nil_r, Nat.add_0_r. destruct st; simpl in *. by subst. }
  simpl. rewrite Hab, (tick_quiet _ _ _ _ _ Hab Hcl Ht).
  rewrite IH by done. simpl.
  do 2 f_equal; [| lia].
  unfold deltasOf. rewrite <- app_assoc. f_equal. simpl.
  by destruct (match engine t with Throws => None | Returns upd _ => _ end).
Qed.

Lemma sseLoop_aborted id session inputs srv st :
  signalAborted srv session = true ->
  sseLoop id session inputs srv st = (srv, st, Cancelled).
Proof. intros Hab. destruct inputs; simpl; by rewrite Hab. Qed.

Lemma tick_cancelled id session t srv st upd fl :
  signalAborted (interrupts id session (duringWait t) (srv, st)).1 session = true ->
  engine t = Returns upd fl -> size fl <> 0%nat ->
  tick id session t srv st =
  ((interrupts id session (duringWait t) (srv, st)).1,
   TickMore (mkStream (closed (interrupts id session (duringWait t) (srv, st)).2)
                      (emitted st) (S (ticks st)))).
Proof.
  intros Hab He Hfl. unfold tick. rewrite He. unfold send. rewrite Hab.
  destruct (interrupts_stream id session (duringWait t) srv st) as [-> ->].
  destruct (decide (0 < size upd)%nat);
    by rewrite (decide_False (P := size fl = 0%nat)) by done.
Qed.

Lemma tick_events id session t srv st :
  exists ds,
    Forall nonEmptyDelta ds /\
    emitted (tickState (tick id session t srv st).2) =
    emitted st ++ ds ++
      match (tick id session t srv st).2 with TickEnd _ => [End] | _ => [] end.
Proof.
  unfold tick.
  pose proof (proj1 (interrupts_stream id session (duringWait t) srv st)) as Hem.
  set (s1 := interrupts id session (duringWait t) (srv, st)) in *.
  destruct (engine t) as [| upd fl]; simpl.
  { exists []. by rewrite Hem, app_nil_r. }
  set (st1 := mkStream (closed s1.2) (emitted s1.2) (S (ticks s1.2))).
  assert (Hsend : forall st2,
            (if decide (0 < size upd)%nat then send session s1.1 upd st1 else Some st1)
            = Some st2 ->
            exists ds, Forall nonEmptyDelta ds /\ emitted st2 = emitted st ++ ds).
  { intros st2. destruct (decide (0 < size upd)%nat) as [Hpos | _].
    - intros Hs. apply send_Some in Hs as (_ & _ & [Hs | Hs]).
      + exists []. by rewrite Hs, app_nil_r.
      + exists [Delta upd]. split; [| by rewrite Hs; simpl; rewrite Hem].
        apply Forall_singleton. by exists upd.
    - intros [= <-]. exists []. by rewrite app_nil_r. }
  destruct (if decide (0 < size upd)%nat then send session s1.1 upd st1 else Some st1)
    as [st2 |]; simpl.
  - destruct (Hsend st2 eq_refl) as (ds & Hds & Hem2).
    destruct (decide (size fl = 0%nat)); simpl.
    + destruct (enqueue End st2) as [st3 |] eqn:Henq; simpl.
      * apply enqueue_Some in Henq as (_ & _ & Hem3 & _).
        exists ds. split; [done |]. by rewrite Hem3, Hem2, app_assoc.
      * exists ds. by rewrite app_nil_r.
    + exists ds. by rewrite app_nil_r.
  - exists []. by rewrite Hem, app_nil_r.
Qed.

Lemma sseLoop_events id session inputs srv st :
  exists ds,
    Forall nonEmptyDelta ds /\
    emitted (sseLoop id session inputs srv st).1.2 =
    emitted st ++ ds ++
      match (sseLoop id session inputs srv st).2 with
      | Completed => [End]
      | _ => []
      end.
Proof.
  revert srv st. induction inputs as [| t rest IH]; intros srv st; simpl.
  { exists []. destruct (signalAborted srv session); simpl; by rewrite app_nil_r. }
  destruct (signalAborted srv session); [exists []; simpl; by rewrite app_nil_r |].
  destruct (tick_events id session t srv st) as (ds & Hds & Hem).
  destruct (tick id session t srv st) as [srv1 [st1 | st1 | st1]]; simpl in *.
  - by exists ds.
  - by exists ds.
  - destruct (IH srv1 st1) as (ds' & Hds' & Hem').
    exists (ds ++ ds'). split; [by apply Forall_app |].
    rewrite Hem', Hem, app_nil_r. by rewrite !app_assoc.
Qed.

Lemma tick_server id session t srv st :
  (tick id session t srv st).1 =
  (interrupts id session (duringWait t) (srv, st)).1.
Proof.
  unfold tick. destruct (engine t) as [| upd fl]; [done |].
  destruct (if decide (0 < size upd)%nat then _ else _); [| done].
  destruct (decide (size fl = 0%nat)); [| done].
  by destruct (enqueue End _).
Qed.

Lemma sseLoop_undisturbed id session inputs srv st :
  Forall (fun t => duringWait t = []) inputs ->
  (sseLoop id session inputs srv st).1.1 = srv.
Proof.
  intros Hq. revert st. induction Hq as [| t rest Ht _ IH]; intros st; simpl.
  { by destruct (signalAborted srv session). }
  destruct (signalAborted srv session); [done |].
  pose proof (tick_server id session t srv st) as Hsrv.
  rewrite Ht in Hsrv. simpl in Hsrv.
  destruct (tick id session t srv st) as [srv1 [st1 | st1 | st1]];
    simpl in *; subst srv1; [done | done | apply IH].
Qed.

Lemma finish_spec id session srv0 r :
  evolves id session srv0 r.1.1 -> released id r.1.1 r.1.2 ->
  r.2 <> Running ->
  sessions (finish id r).1.1 !! id = None /\
  evolves id session srv0 (finish id r).1.1 /\
  emitted (finish id r).1.2 = emitted r.1.2 /\
  ticks (finish id r).1.2 = ticks r.1.2 /\
  (finish id r).2 = r.2.
Proof.
  destruct r as [[srv st] out]. intros Hev Hrel Hout.
  assert (Hfin : finish id (srv, st, out) =
                 if closed st then (srv, st, out)
                 else (sessionsDelete id srv,
                       mkStream true (emitted st) (ticks st), out))
    by (destruct out; done || by destruct Hout).
  rewrite !Hfin. simpl in *. destruct (closed st) eqn:Hc; simpl.
  - split; [by apply Hrel | done].
  - split; [apply lookup_delete_eq |]. split; [| done].
    eapply evolves_trans; [done | apply sessionsDelete_evolves].
Qed.

Lemma start_spec id session inputs srv :
  (start id session inputs srv).2 <> Running ->
  sessions (start id session inputs srv).1.1 !! id = None /\
  evolves id session srv (start id session inputs srv).1.1.
Proof.
  intros Hout. unfold start in *.
  destruct (sseLoop_spec id session inputs srv newStream) as [Hev Hrel];
    [by intros [=] |].
  assert (Hout' : (sseLoop id session inputs srv newStream).2 <> Running).
  { intros Hrun. apply Hout.
    destruct (sseLoop id session inputs srv newStream) as [[srv1 st1] out].
    simpl in Hrun. by subst out. }
  destruct (finish_spec id session srv _ Hev Hrel Hout') as (Hgone & Hev' & _).
  done.
Qed.

Lemma stream_end_released id session inputs srv :
  (start id session inputs srv).2 <> Running ->
  sessions (start id session inputs srv).1.1 !! id = None.
Proof. intros Hout. by apply start_spec. Qed.

(** ** Claims on the reconstruction *)

(** C7 (as amended). For width > 0 and height > 0, when [coords] sends every
    supplied cell it knows to the row-major position of that cell's own
    coordinate inside the box, the reconstructed field has exactly
    width * height cells, every coordinate of the box
    [-⌊width/2⌋, width-⌊width/2⌋) × [-⌊height/2⌋, height-⌊height/2⌋) is held
    by exactly one entry, and every coordinate that no supplied cell has is a
    tree with burnTime = 0. *)
Theorem reconstruct_dense_field_correct (width height : Z)
    (cells : list Cell) (coords : gmap string Z) :
  0 < width -> 0 < height -> consistentOn width height coords cells ->
  denseFieldCorrect width height cells (reconstruct width height cells coords).
Proof.
  intros Hw Hh Hcons.
  pose proof (reconstruct_invariant _ _ _ _ Hw Hh Hcons) as Hinv.
  split; [apply Hinv |]. split.
  - intros cx cy Hbox. exists (Z.to_nat (position width height cx cy)). split.
    + destruct Hinv as [_ Hinv]. destruct (Hinv _ _ Hbox) as (c & Hget & Hxy).
      apply arrayGet_Some in Hget as [_ Hget]. by exists c.
    + intros j c Hj <- <-.
      by destruct (reconstruct_entry _ _ _ _ _ _ Hw Hh Hcons Hj) as (_ & -> & _).
  - intros i c Hi Hno.
    destruct (reconstruct_entry _ _ _ _ _ _ Hw Hh Hcons Hi) as (_ & _ & Hc).
    rewrite lastSupplied_None in Hc.
    + simpl in Hc. by rewrite Hc.
    + intros c' Hin. apply Hno. by eapply elem_of_placed.
Qed.

Lemma reconstruct_dense_field_correct_witness :
  0 < 2 /\ 0 < 2 /\
  consistentOn 2 2 {[ "0,-1" := 1; "-1,0" := 2 ]} [mkCell 0 (-1) B 3] /\
  denseFieldCorrect 2 2 [mkCell 0 (-1) B 3]
    (reconstruct 2 2 [mkCell 0 (-1) B 3] {[ "0,-1" := 1; "-1,0" := 2 ]}).
Proof.
  assert (Hcons : consistentOn 2 2 {[ "0,-1" := 1; "-1,0" := 2 ]}
                    [mkCell 0 (-1) B 3]).
  { intros c i Hin Hkey. apply list_elem_of_singleton in Hin. subst c.
    vm_compute in Hkey. injection Hkey as <-. vm_compute. intuition discriminate. }
  split; [lia |]. split; [lia |]. split; [exact Hcons |].
  apply (reconstruct_dense_field_correct 2 2); [lia | lia | exact Hcons].
Defined.

(** C7 as stated fails: with a [coords] object that sends the key "7,7" to
    index 0, the 1 x 1 field holds the supplied cell (7,7) and no cell of
    coordinate (0,0). *)
Lemma reconstruct_dense_field_counterexample :
  0 < 1 /\ 0 < 1 /\
  ~ denseFieldCorrect 1 1 [mkCell 7 7 B 0]
      (reconstruct 1 1 [mkCell 7 7 B 0] {[ "7,7" := 0 ]}).
Proof.
  split; [lia |]. split; [lia |].
  intros (_ & Hone & _).
  destruct (Hone 0 0) as (i & (c & Hi & Hx & _) & _); [vm_compute; intuition discriminate |].
  change (reconstruct 1 1 [mkCell 7 7 B 0] {[ "7,7" := 0 ]})
    with [Some (mkCell 7 7 B 0)] in Hi.
  destruct i as [| i]; [| by destruct i].
  injection Hi as <-. discriminate Hx.
Qed.

(** C8 (as amended). For width > 0 and height > 0, when the supplied cells
    are Burning/Empty overrides inside the box and [coords] sends each of
    them to the row-major position of its coordinate, the non-tree cells of
    the reconstructed field are exactly the supplied overrides (the last one
    supplied where two share a coordinate, a permutation of the supplied list
    where none do), the field has width * height cells, and supplying
    overrides of distinct coordinates in another order gives the same
    field. *)
Theorem reconstruct_round_trip (width height : Z)
    (cells : list Cell) (coords : gmap string Z) :
  0 < width -> 0 < height -> overridesOn width height coords cells ->
  roundTrip width height cells (reconstruct width height cells coords) /\
  (forall cells', NoDup ((fun c => (x c, y c)) <$> cells) -> cells' ≡ₚ cells ->
     reconstruct width height cells' coords =
     reconstruct width height cells coords).
Proof.
  intros Hw Hh Hov.
  split; [| intros cells' Hnd' Hperm; by apply reconstruct_Permutation].
  pose proof (overridesOn_consistent _ _ _ _ Hov) as Hcons.
  pose proof (overridesOn_placed _ _ _ _ Hov) as Hplaced.
  assert (Hmem : forall c, c ∈ nonTreeCells (reconstruct width height cells coords)
                           <-> lastSupplied cells (x c) (y c) = Some c).
  { intros c. rewrite elem_of_nonTreeCells. split.
    - intros (Hs & i & Hi).
      destruct (reconstruct_entry _ _ _ _ _ _ Hw Hh Hcons Hi) as (_ & _ & Hc).
      rewrite Hplaced in Hc.
      destruct (lastSupplied cells (x c) (y c)) as [c' |]; simpl in Hc.
      + by subst c'.
      + rewrite Hc in Hs. by destruct Hs.
    - intros Hlast. pose proof (lastSupplied_Some _ _ _ _ Hlast) as (Hin & _).
      destruct (Hov c Hin) as (Hs & Hbox & _). split; [done |].
      pose proof (reconstruct_get _ _ _ _ _ _ Hw Hh Hcons Hbox) as Hget.
      rewrite Hplaced, Hlast in Hget. simpl in Hget.
      apply arrayGet_Some in Hget as [_ Hget]. by eexists. }
  assert (Hnd : NoDup (nonTreeCells (reconstruct width height cells coords))).
  { apply NoDup_filter. apply (fieldInvariant_NoDup width height); [done |].
    by apply reconstruct_invariant. }
  split; [by apply length_reconstruct |]. split; [done |]. split; [done |].
  intros Hcells. apply NoDup_Permutation; [done | by eapply NoDup_fmap_1 |].
  intros c. rewrite Hmem. split.
  - intros Hlast. by apply lastSupplied_Some in Hlast as (? & _).
  - by apply lastSupplied_NoDup.
Qed.

Lemma reconstruct_round_trip_witness :
  0 < 3 /\ 0 < 2 /\
  overridesOn 3 2 (rowMajorCoords 3 2) [mkCell 1 0 B 0; mkCell (-1) (-1) E 0] /\
  roundTrip 3 2 [mkCell 1 0 B 0; mkCell (-1) (-1) E 0]
    (reconstruct 3 2 [mkCell 1 0 B 0; mkCell (-1) (-1) E 0] (rowMajorCoords 3 2)) /\
  reconstruct 3 2 [mkCell (-1) (-1) E 0; mkCell 1 0 B 0] (rowMajorCoords 3 2) =
  reconstruct 3 2 [mkCell 1 0 B 0; mkCell (-1) (-1) E 0] (rowMajorCoords 3 2).
Proof.
  assert (Hov : overridesOn 3 2 (rowMajorCoords 3 2)
                  [mkCell 1 0 B 0; mkCell (-1) (-1) E 0]).
  { intros c Hin. apply elem_of_cons in Hin as [-> | Hin];
      [| apply list_elem_of_singleton in Hin as ->];
      (split; [discriminate |]); (split; [| vm_compute; reflexivity]);
      vm_compute; intuition discriminate. }
  split; [lia |]. split; [lia |]. split; [exact Hov |].
  destruct (reconstruct_round_trip 3 2 _ _ ltac:(lia) ltac:(lia) Hov)
    as [Hround Horder].
  split; [exact Hround |].
  apply Horder; [| apply Permutation_swap].
  simpl. apply NoDup_cons. split; [| apply NoDup_singleton].
  rewrite list_elem_of_singleton. discriminate.
Defined.

(** C8 as stated fails: the overrides are in bounds, but a [coords] object
    without their keys makes the overlay skip them, and the dense field has
    no non-tree cell to extract. *)
Lemma reconstruct_round_trip_counterexample :
  overrides 1 1 [mkCell 0 0 B 0] /\
  ~ roundTrip 1 1 [mkCell 0 0 B 0] (reconstruct 1 1 [mkCell 0 0 B 0] ∅).
Proof.
  split.
  - intros c Hin. apply list_elem_of_singleton in Hin as ->.
    split; [discriminate | vm_compute; intuition discriminate].
  - intros (_ & Hmem & _).
    destruct (Hmem (mkCell 0 0 B 0)) as [_ Hback].
    specialize (Hback eq_refl). vm_compute in Hback. by inversion Hback.
Qed.




(** ** Claims on the registry *)

(** C1 (as amended). Cancel succeeds once: on a registered session id the
    first DELETE answers success and removes the entry, and every later
    DELETE on that id answers UnknownSession (400, "Invalid session ID"); on
    an id that is not registered DELETE answers UnknownSession on every call
    and changes nothing. *)
Theorem cancel_succeeds_once (srv : Server) (id : string) :
  (forall session, id <> "" -> sessions srv !! id = Some session ->
     (DELETE (Some id) srv).2 = Json SuccessBody 200 /\
     sessions (DELETE (Some id) srv).1 !! id = None /\
     forall n, DELETE (Some id) (deleteTimes n id (DELETE (Some id) srv).1) =
               ((DELETE (Some id) srv).1, UnknownSession)) /\
  (sessions srv !! id = None ->
     forall n, DELETE (Some id) (deleteTimes n id srv) = (srv, UnknownSession)).
Proof.
  split.
  - intros session Hid Hs. rewrite (DELETE_known _ _ _ Hid Hs). simpl.
    assert (Hgone : sessions (sessionsDelete id (abort session srv)) !! id = None)
      by apply lookup_delete_eq.
    split; [done |]. split; [done |]. intros n.
    rewrite deleteTimes_unknown by done. by apply DELETE_unknown.
  - intros Hs n. rewrite deleteTimes_unknown by done. by apply DELETE_unknown.
Qed.

Lemma cancel_succeeds_once_witness :
  (DELETE (Some "a") exampleServer).2 = Json SuccessBody 200 /\
  DELETE (Some "a") (deleteTimes 2 "a" (DELETE (Some "a") exampleServer).1) =
    ((DELETE (Some "a") exampleServer).1, UnknownSession) /\
  DELETE (Some "b") (deleteTimes 3 "b" exampleServer) = (exampleServer, UnknownSession).
Proof.
  destruct (cancel_succeeds_once exampleServer "a") as [Hknown _].
  destruct (Hknown exampleSession) as (Hfirst & _ & Hlater);
    [discriminate | reflexivity |].
  destruct (cancel_succeeds_once exampleServer "b") as [_ Hunknown].
  split; [exact Hfirst |]. split; [apply Hlater |].
  apply Hunknown. reflexivity.
Defined.

(** C1 as stated fails: the second cancel of a session that was cancelled
    once is answered with UnknownSession, not with success. *)
Lemma cancel_twice_counterexample :
  (DELETE (Some "a") exampleServer).2 = Json SuccessBody 200 /\
  (DELETE (Some "a") (DELETE (Some "a") exampleServer).1).2 = UnknownSession /\
  UnknownSession <> Json SuccessBody 200.
Proof. split; [reflexivity |]. split; [reflexivity | discriminate]. Qed.

(** C2 (as amended). Session creation checks neither the dimensions nor the
    bounds: when field, params and coords are present, POST reconstructs the
    cells (an empty tree array for width or height <= 0, a supplied cell
    skipped when [coords] lacks its key) and creates the session with status
    200 whenever [generateCoordMap] accepts the cells; its only failure is
    then the 500 "Failed to create session" of a throwing
    [generateCoordMap]. *)
Theorem POST_checks_no_dimensions
    (generateCoordMap : CellArray -> option (gmap string Z))
    (b : Body.t) (uuid : string) (srv : Server)
    (f : Body.FieldJson) (p : ForestFireParams) (coords : gmap string Z) :
  Body.field b = Some f -> Body.params b = Some p -> Body.coords b = Some coords ->
  let fullCells := reconstruct (Body.width f) (Body.height f) (Body.cells f) coords in
  (Body.width f <= 0 \/ Body.height f <= 0 ->
     treeCells (Body.width f) (Body.height f) = []) /\
  (forall c, c ∈ Body.cells f -> coords !! coordKey (x c) (y c) = None ->
     forall arr, overlayCell coords arr c = arr) /\
  POST generateCoordMap (Some b) uuid srv =
    match generateCoordMap fullCells with
    | Some m =>
        (sessionsSet uuid (mkField (Body.width f) (Body.height f) fullCells m) p srv,
         Json (SessionIdBody uuid) 200)
    | None => (srv, Json (ErrorBody "Failed to create session") 500)
    end.
Proof.
  intros Hf Hp Hc. simpl. split; [apply treeCells_empty |].
  split; [intros c _ Hkey arr; by apply overlayCell_absent |].
  unfold POST. by rewrite Hf, Hp, Hc.
Qed.

Lemma POST_checks_no_dimensions_witness :
  POST buildCoordinateIndex (Some degenerateBody) "id" emptyServer =
    (sessionsSet "id" (mkField 0 (-3) [] ∅) exampleParams emptyServer,
     Json (SessionIdBody "id") 200).
Proof.
  destruct (POST_checks_no_dimensions buildCoordinateIndex degenerateBody "id"
              emptyServer (Body.mkFieldJson 0 (-3) []) exampleParams ∅
              eq_refl eq_refl eq_refl) as (_ & _ & Hpost).
  rewrite Hpost. reflexivity.
Defined.

(** C2 as stated fails: a request with width 0 and height -3, and a request
    with a cell outside the box, are both answered with status 200 and leave
    a session in the registry. *)
Lemma POST_dimensions_counterexample :
  (Body.width (Body.mkFieldJson 0 (-3) []) <= 0 /\
   (POST buildCoordinateIndex (Some degenerateBody) "id" emptyServer).2 =
     Json (SessionIdBody "id") 200 /\
   is_Some (sessions (POST buildCoordinateIndex (Some degenerateBody) "id"
                        emptyServer).1 !! "id")) /\
  (~ inBox 2 2 5 5 /\
   (POST buildCoordinateIndex (Some outsideBody) "id" emptyServer).2 =
     Json (SessionIdBody "id") 200 /\
   is_Some (sessions (POST buildCoordinateIndex (Some outsideBody) "id"
                        emptyServer).1 !! "id")).
Proof.
  split.
  - split; [simpl; lia |]. split; [reflexivity |]. vm_compute. by eexists.
  - split; [vm_compute; intuition discriminate |].
    split; [vm_compute; reflexivity |]. vm_compute. by eexists.
Qed.

(** ** Claims on the stream *)

(** C6. Whichever way a stream ends (completion, cancellation by DELETE or
    by the transport, an exception in a tick), the registry has no entry for
    its session id afterwards; the entries of all other ids are untouched and
    no signal but the one of this session (or of the entry registered under
    its id) is aborted. DELETE and the stream's [cancel()] remove the entry at
    once. *)
Theorem stream_end_releases_session (id : string) (session : Session)
    (inputs : list TickInput) (srv : Server) :
  ((start id session inputs srv).2 <> Running ->
     sessions (start id session inputs srv).1.1 !! id = None /\
     (forall id', id' <> id ->
        sessions (start id session inputs srv).1.1 !! id' = sessions srv !! id') /\
     abortedSignals (start id session inputs srv).1.1 ⊆
       abortedSignals srv ∪ {[ abortController session ]} ∪ controllerAt id srv) /\
  (id <> "" -> sessions srv !! id = Some session ->
     sessions (DELETE (Some id) srv).1 !! id = None) /\
  sessions (streamCancel id session srv) !! id = None.
Proof.
  split; [| split].
  - intros Hout.
    destruct (start_spec id session inputs srv Hout)
      as (Hgone & Hother & _ & _ & Hsig).
    done.
  - intros Hid Hs. rewrite (DELETE_known _ _ _ Hid Hs). apply lookup_delete_eq.
  - apply lookup_delete_eq.
Qed.

Lemma stream_end_releases_session_witness :
  (* completion *)
  sessions (start "a" exampleSession [mkTick [] (Returns ∅ ∅)] exampleServer).1.1
    !! "a" = None /\
  (* an exception in the second tick *)
  sessions (start "a" exampleSession
              [mkTick [] (Returns ∅ {[ "0,0" ]}); mkTick [] Throws]
              exampleServer).1.1 !! "a" = None /\
  (* the transport goes away during the first wait *)
  sessions (start "a" exampleSession
              [mkTick [ByTransport] (Returns ∅ {[ "0,0" ]}); mkTick [] Throws]
              exampleServer).1.1 !! "a" = None.
Proof.
  split; [| split].
  - refine (proj1 (proj1 (stream_end_releases_session "a" exampleSession
             [mkTick [] (Returns ∅ ∅)] exampleServer) _)).
    vm_compute. discriminate.
  - refine (proj1 (proj1 (stream_end_releases_session "a" exampleSession
             [mkTick [] (Returns ∅ {[ "0,0" ]}); mkTick [] Throws] exampleServer) _)).
    vm_compute. discriminate.
  - refine (proj1 (proj1 (stream_end_releases_session "a" exampleSession
             [mkTick [ByTransport] (Returns ∅ {[ "0,0" ]}); mkTick [] Throws]
             exampleServer) _)).
    vm_compute. discriminate.
Defined.

(** C10. The loop of route.ts (with [break]) and the loop of the earlier
    variant (with the [simulationEnded] flag) are the same function of the
    engine results and of the cancellations: same server state, same events,
    same number of ticks, same way of ending. *)
Theorem loops_equivalent (id : string) (session : Session)
    (inputs : list TickInput) (srv : Server) (st : StreamState) :
  sseLoopFlag id session inputs srv st false = sseLoop id session inputs srv st /\
  startFlag id session inputs srv = start id session inputs srv.
Proof.
  split; [apply sseLoopFlag_sseLoop |].
  unfold startFlag, start. by rewrite sseLoopFlag_sseLoop.
Qed.

(** C3 (as amended). GET answers UnknownSession for a session id once a
    stream attached to it has ended (by completion, cancellation or an
    exception) or once the session was cancelled by DELETE; as long as the
    entry is registered, and so while a first stream is still running
    undisturbed, GET on the same id succeeds again and hands out the same
    session. *)
Theorem attach_fails_after_end (id : string) (session : Session)
    (inputs : list TickInput) (srv : Server) :
  ((start id session inputs srv).2 <> Running ->
     GET (Some id) (start id session inputs srv).1.1 = (UnknownSession, None)) /\
  (id <> "" -> sessions srv !! id = Some session ->
     GET (Some id) (DELETE (Some id) srv).1 = (UnknownSession, None) /\
     GET (Some id) srv = (EventStream, Some session) /\
     (Forall (fun t => duringWait t = []) inputs ->
      (start id session inputs srv).2 = Running ->
      GET (Some id) (start id session inputs srv).1.1 = (EventStream, Some session))).
Proof.
  split.
  - intros Hout. apply GET_unknown.
    by apply (stream_end_released id session inputs srv).
  - intros Hid Hs. split; [| split].
    + apply GET_unknown. rewrite (DELETE_known _ _ _ Hid Hs). apply lookup_delete_eq.
    + by apply GET_known.
    + intros Hq Hrun. unfold start in *.
      pose proof (sseLoop_undisturbed id session inputs srv newStream Hq) as Hsrv.
      destruct (sseLoop id session inputs srv newStream) as [[srv1 st1] out].
      simpl in *. destruct out; try discriminate Hrun; try (by destruct (closed st1)).
      simpl. subst srv1. by apply GET_known.
Qed.

Lemma attach_fails_after_end_witness :
  GET (Some "a")
      (start "a" exampleSession [mkTick [] (Returns ∅ ∅)] exampleServer).1.1 =
    (UnknownSession, None) /\
  GET (Some "a") (DELETE (Some "a") exampleServer).1 = (UnknownSession, None).
Proof.
  destruct (attach_fails_after_end "a" exampleSession
              [mkTick [] (Returns ∅ ∅)] exampleServer) as [Hend Hreg].
  split.
  - apply Hend. vm_compute. discriminate.
  - apply Hreg; [discriminate | reflexivity].
Defined.

(** C3 as stated fails: while the first stream of session "a" is running
    (one tick done, something still flammable), a second GET on "a" is
    answered with a stream. *)
Lemma second_attach_counterexample :
  let inputs := [mkTick [] (Returns ∅ {[ "0,0" ]})] in
  GET (Some "a") exampleServer = (EventStream, Some exampleSession) /\
  (start "a" exampleSession inputs exampleServer).2 = Running /\
  GET (Some "a") (start "a" exampleSession inputs exampleServer).1.1 =
    (EventStream, Some exampleSession) /\
  EventStream <> UnknownSession.
Proof.
  simpl. split; [reflexivity |]. split; [vm_compute; reflexivity |].
  split; [vm_compute; reflexivity | discriminate].
Qed.

(** C4 (as amended). The wait of a tick is not interruptible: the signal is
    only tested at the head of the loop. When a cancellation fires during a
    wait and something is still flammable after that tick, the timer of
    [updateInterval * 1000] ms still runs out, the engine is called once more
    (its delta is not sent), and the loop stops at the next test of the
    signal; after [n] undisturbed ticks the loop has then spent [n + 1] full
    timers. *)
Theorem wait_is_not_interruptible (id : string) (session : Session)
    (pre : list TickInput) (t : TickInput) (rest : list TickInput)
    (srv : Server) (st : StreamState)
    (upd : gmap string Cell) (fl : gset string) :
  signalAborted srv session = false -> closed st = false ->
  Forall quietTick pre ->
  signalAborted (interrupts id session (duringWait t) (srv, st)).1 session = true ->
  engine t = Returns upd fl -> size fl <> 0%nat ->
  let r := sseLoop id session (pre ++ t :: rest) srv st in
  r.2 = Cancelled /\
  ticks r.1.2 = (ticks st + length pre + 1)%nat /\
  emitted r.1.2 = emitted st ++ deltasOf pre /\
  elapsed session r.1.2 =
    (inject_Z (Z.of_nat (ticks st + length pre + 1)) * timerDelay (params session))%Q.
Proof.
  intros Hab Hcl Hpre Hcancel He Hfl. simpl.
  rewrite (sseLoop_quiet _ _ _ _ _ _ Hab Hcl Hpre). simpl. rewrite Hab.
  set (st' := mkStream false (emitted st ++ deltasOf pre) (ticks st + length pre)).
  rewrite (interrupts_server _ _ _ _ st st') in Hcancel.
  rewrite (tick_cancelled _ _ _ _ _ _ _ Hcancel He Hfl).
  rewrite (sseLoop_aborted _ _ _ _ _ Hcancel). simpl.
  assert (Htk : S (ticks st + length pre) = (ticks st + length pre + 1)%nat) by lia.
  split; [done |]. split; [done |]. split; [done |].
  unfold elapsed. simpl. by rewrite Htk.
Qed.

Lemma wait_is_not_interruptible_witness :
  let r := sseLoop "a" exampleSession
             [mkTick [] (Returns {[ "0,0" := mkCell 0 0 B 1 ]} {[ "0,0" ]});
              mkTick [ByDelete] (Returns {[ "0,0" := mkCell 0 0 B 2 ]} {[ "0,0" ]});
              mkTick [] (Returns ∅ ∅)]
             exampleServer newStream in
  r.2 = Cancelled /\ ticks r.1.2 = 2%nat /\
  emitted r.1.2 = [Delta {[ "0,0" := mkCell 0 0 B 1 ]}].
Proof.
  destruct (wait_is_not_interruptible "a" exampleSession
              [mkTick [] (Returns {[ "0,0" := mkCell 0 0 B 1 ]} {[ "0,0" ]})]
              (mkTick [ByDelete] (Returns {[ "0,0" := mkCell 0 0 B 2 ]} {[ "0,0" ]}))
              [mkTick [] (Returns ∅ ∅)]
              exampleServer newStream
              {[ "0,0" := mkCell 0 0 B 2 ]} {[ "0,0" ]})
    as (Hout & Hticks & Hem & _).
  - reflexivity.
  - reflexivity.
  - apply Forall_singleton. split; [reflexivity |].
    exists {[ "0,0" := mkCell 0 0 B 1 ]}, {[ "0,0" ]}. split; [reflexivity |].
    vm_compute. discriminate.
  - vm_compute. reflexivity.
  - reflexivity.
  - vm_compute. discriminate.
  - simpl. split; [exact Hout |]. split; [exact Hticks |]. exact Hem.
Defined.

(** C4 as stated fails: DELETE arrives during the wait of the first tick,
    and the loop still lets the timer run out and calls the engine before it
    stops. *)
Lemma wait_counterexample :
  ~ cancelPreemptsWait "a" exampleSession exampleServer newStream
      (mkTick [ByDelete] (Returns ∅ {[ "0,0" ]})).
Proof.
  intros Hclaim.
  assert (Hticks : ticks (sseLoop "a" exampleSession
                            [mkTick [ByDelete] (Returns ∅ {[ "0,0" ]})]
                            exampleServer newStream).1.2 = ticks newStream).
  { apply Hclaim; vm_compute; reflexivity. }
  vm_compute in Hticks. discriminate Hticks.
Qed.

(** C5, at the failing input. DELETE is answered with success during the wait
    of the first tick, the engine then reports that nothing is flammable, and
    the stream still carries the end event: [send] tests the signal before it
    enqueues a delta, the end event is enqueued without that test. *)
Theorem end_event_after_cancel :
  let t := mkTick [ByDelete] (Returns ∅ ∅) in
  (DELETE (Some "a") exampleServer).2 = Json SuccessBody 200 /\
  signalAborted (interrupts "a" exampleSession (duringWait t)
                   (exampleServer, newStream)).1 exampleSession = true /\
  emitted (start "a" exampleSession [t] exampleServer).1.2 = [End] /\
  (start "a" exampleSession [t] exampleServer).2 = Completed.
Proof.
  simpl. split; [reflexivity |]. split; [vm_compute; reflexivity |].
  split; vm_compute; reflexivity.
Qed.

(** The part of C5 that holds on every run: a delta is only sent when its map
    is not empty, and the end event comes at most once, as the last event,
    exactly when the loop ends because nothing is flammable. *)
Lemma stream_events (id : string) (session : Session)
    (inputs : list TickInput) (srv : Server) :
  exists ds,
    Forall nonEmptyDelta ds /\
    emitted (start id session inputs srv).1.2 =
      ds ++ match (start id session inputs srv).2 with
            | Completed => [End]
            | _ => []
            end.
Proof.
  unfold start.
  destruct (sseLoop_events id session inputs srv newStream) as (ds & Hds & Hem).
  exists ds. split; [done |].
  destruct (sseLoop id session inputs srv newStream) as [[srv1 st1] out].
  simpl in *. destruct out; simpl; try done; by destruct (closed st1).
Qed.

(** ** The length of the reconstructed array *)

Lemma length_overlay_ge (coords : gmap string Z) (cells : list Cell)
    (arr : CellArray) :
  (length arr <= length (overlay coords arr cells))%nat.
Proof.
  revert arr. induction cells as [| c cells IH]; intros arr; [done |].
  rewrite overlay_cons. etrans; [| apply IH].
  unfold overlayCell. destruct (coords !! coordKey (x c) (y c)); [| done].
  rewrite length_arraySet. case_decide; lia.
Qed.

Lemma length_overlay_covers (coords : gmap string Z) (cells : list Cell)
    (arr : CellArray) (c : Cell) (i : Z) :
  c ∈ cells -> coords !! coordKey (x c) (y c) = Some i -> 0 <= i ->
  (Z.to_nat i < length (overlay coords arr cells))%nat.
Proof.
  intros Hin Hkey Hi. revert arr.
  induction cells as [| c' cells IH]; intros arr; [by inversion Hin |].
  rewrite overlay_cons. apply elem_of_cons in Hin as [<- | Hin]; [| by apply IH].
  eapply Nat.lt_le_trans; [| apply length_overlay_ge].
  unfold overlayCell. rewrite Hkey, length_arraySet. case_decide; lia.
Qed.

Lemma length_overlay_inside (coords : gmap string Z) (cells : list Cell)
    (arr : CellArray) :
  (forall c i, c ∈ cells -> coords !! coordKey (x c) (y c) = Some i ->
     i < Z.of_nat (length arr)) ->
  length (overlay coords arr cells) = length arr.
Proof.
  revert arr. induction cells as [| c cells IH]; intros arr Hin; [done |].
  rewrite overlay_cons.
  assert (Hlen : length (overlayCell coords arr c) = length arr).
  { unfold overlayCell.
    destruct (coords !! coordKey (x c) (y c)) as [i |] eqn:Hkey; [| done].
    rewrite length_arraySet, decide_False; [done |].
    specialize (Hin c i ltac:(left) Hkey). lia. }
  rewrite IH, Hlen; [done |].
  intros c' i Hc' Hkey. rewrite Hlen. apply (Hin c' i); [by right | done].
Qed.

(** ** A complete field is reconstructed as it is *)

Lemma fieldInvariant_no_holes (width height : Z) (arr : CellArray) :
  0 < width -> fieldInvariant width height arr -> Some <$> omap id arr = arr.
Proof.
  intros Hw Hinv.
  assert (Hall : Forall (fun oc => is_Some oc) arr).
  { apply Forall_lookup. intros i oc Hi.
    destruct (fieldInvariant_lookup _ _ _ _ _ Hw Hinv Hi) as (c & -> & _).
    by eexists. }
  clear Hinv. induction Hall as [| oc l [c ->] _ IH]; [done |].
  cbn. f_equal. apply IH.
Qed.

Lemma fieldInvariant_cells_lookup (width height : Z) (arr : CellArray)
    (i : nat) (c : Cell) :
  0 < width -> fieldInvariant width height arr ->
  omap id arr !! i = Some c <-> arr !! i = Some (Some c).
Proof.
  intros Hw Hinv.
  rewrite <- (fieldInvariant_no_holes _ _ _ Hw Hinv) at 2.
  rewrite list_lookup_fmap. destruct (omap id arr !! i); simpl; naive_solver.
Qed.

Lemma fieldInvariant_coordinates_NoDup (width height : Z) (arr : CellArray) :
  0 < width -> fieldInvariant width height arr ->
  NoDup ((fun c => (x c, y c)) <$> omap id arr).
Proof.
  intros Hw Hinv. apply NoDup_alt. intros i j p Hi Hj.
  rewrite list_lookup_fmap in Hi, Hj.
  destruct (omap id arr !! i) as [ci |] eqn:Hci; [| done].
  destruct (omap id arr !! j) as [cj |] eqn:Hcj; [| done].
  simpl in Hi, Hj. injection Hi as <-. injection Hj as [= Hx Hy].
  apply (fieldInvariant_cells_lookup _ _ _ _ _ Hw Hinv) in Hci, Hcj.
  destruct (fieldInvariant_lookup _ _ _ _ _ Hw Hinv Hci) as (? & [= <-] & _ & <-).
  destruct (fieldInvariant_lookup _ _ _ _ _ Hw Hinv Hcj) as (? & [= <-] & _ & <-).
  by rewrite Hx, Hy.
Qed.

Lemma placed_all (coords : gmap string Z) (cells : list Cell) :
  (forall c, c ∈ cells -> is_Some (coords !! coordKey (x c) (y c))) ->
  placed coords cells = cells.
Proof.
  intros Hall. unfold placed. induction cells as [| c cells IH]; [done |].
  rewrite filter_cons_True by (apply Hall; left).
  f_equal. apply IH. intros c' Hin. apply Hall. by right.
Qed.

Lemma reconstruct_complete (width height : Z) (arr : CellArray) :
  0 < width -> 0 < height -> fieldInvariant width height arr ->
  reconstruct width height (omap id arr) (rowMajorCoords width height) = arr.
Proof.
  intros Hw Hh Hinv.
  pose proof (rowMajorCoords_consistent width height (omap id arr)
                ltac:(lia) ltac:(lia)) as Hcons.
  assert (Hplaced : placed (rowMajorCoords width height) (omap id arr) = omap id arr).
  { apply placed_all. intros c Hin. apply list_elem_of_lookup in Hin as [i Hi].
    apply (fieldInvariant_cells_lookup _ _ _ _ _ Hw Hinv) in Hi.
    destruct (fieldInvariant_lookup _ _ _ _ _ Hw Hinv Hi) as (? & [= <-] & Hbox & _).
    rewrite rowMajorCoords_inside by (done || lia). by eexists. }
  apply list_eq. intros i.
  destruct (decide (i < Z.to_nat (width * height))%nat) as [Hi | Hi].
  - destruct (position_surj width height (Z.of_nat i)) as [Hbox Hpos]; [lia | done |].
    pose proof (reconstruct_get _ _ _ _ _ _ Hw Hh Hcons Hbox) as Hget.
    destruct Hinv as [Hlen Hcell]. destruct (Hcell _ _ Hbox) as (c & Hc & Hx & Hy).
    assert (Hin : c ∈ omap id arr).
    { apply arrayGet_Some in Hc as [_ Hc]. apply list_elem_of_omap.
      exists (Some c). split; [by eapply list_elem_of_lookup_2 | done]. }
    rewrite Hplaced, <- Hx, <- Hy in Hget.
    rewrite lastSupplied_NoDup in Hget;
      [| by apply (fieldInvariant_coordinates_NoDup width height) | done].
    simpl in Hget. rewrite Hx, Hy in Hget.
    apply arrayGet_Some in Hget as [_ Hget]. apply arrayGet_Some in Hc as [_ Hc].
    rewrite Hpos, Nat2Z.id in Hget, Hc. by rewrite Hget, Hc.
  - rewrite !lookup_ge_None_2; [done | |].
    + destruct Hinv as [-> _]. lia.
    + rewrite length_reconstruct by done. lia.
Qed.

(** ** The handlers taken together keep the registry coherent *)

Lemma POST_server gen body uuid srv :
  (POST gen body uuid srv).1 = srv \/
  exists f p, (POST gen body uuid srv).1 = sessionsSet uuid f p srv.
Proof.
  unfold POST. destruct body as [b |]; [| by left].
  destruct (Body.field b) as [f |]; [| by left].
  destruct (Body.params b) as [p |]; [| by left].
  destruct (Body.coords b) as [coords |]; [| by left].
  destruct (gen _) as [m |]; [| by left].
  right. by eexists _, _.
Qed.

Lemma DELETE_server sessionId srv :
  (DELETE sessionId srv).1 = srv \/
  exists id s, sessionId = Some id /\ id <> "" /\ sessions srv !! id = Some s /\
    (DELETE sessionId srv).1 = sessionsDelete id (abort s srv).
Proof.
  unfold DELETE. destruct (invalidSessionId sessionId srv) eqn:Hinv; [by left |].
  destruct sessionId as [id |]; [| done]. simpl in *.
  destruct (sessions srv !! id) as [s |] eqn:Hs; [| by left].
  right. exists id, s. repeat split; try done.
  intros ->. by rewrite bool_decide_eq_true_2 in Hinv.
Qed.

Lemma GET_Some sessionId srv s :
  (GET sessionId srv).2 = Some s ->
  exists id, sessionId = Some id /\ id <> "" /\ sessions srv !! id = Some s /\
             (GET sessionId srv).1 = EventStream.
Proof.
  unfold GET. destruct (invalidSessionId sessionId srv) eqn:Hinv; [done |].
  destruct sessionId as [id |]; [| done]. simpl in *.
  destruct (sessions srv !! id) as [s' |] eqn:Hs; [| done].
  simpl. intros [= ->]. exists id. repeat split; try done.
  intros ->. by rewrite bool_decide_eq_true_2 in Hinv.
Qed.

Lemma coherent_initial : coherent initialSystem.
Proof.
  split; [| split; [| split]]; simpl.
  - intros c Hc. by apply elem_of_empty in Hc.
  - intros id s Hs. by rewrite lookup_empty in Hs.
  - intros id id' s s' Hs. by rewrite lookup_empty in Hs.
  - intros r Hr. by apply elem_of_nil in Hr.
Qed.

Lemma coherent_set uuid f p srv strs :
  coherent (mkSystem srv strs) ->
  coherent (mkSystem (sessionsSet uuid f p srv) strs).
Proof.
  intros (Hab & Hreg & Hdist & Hstr). unfold coherent. simpl.
  split; [| split; [| split]].
  - intros c Hc. specialize (Hab c Hc). simpl in Hab. lia.
  - intros id s. rewrite lookup_insert. case_decide as Hid.
    + intros [= <-]. simpl. split; [lia |].
      intros Hin. specialize (Hab _ Hin). simpl in Hab. lia.
    + intros Hs. destruct (Hreg id s Hs) as [Hlt Hna]. simpl in *. split; [lia | done].
  - intros id id' s s'. rewrite !lookup_insert.
    destruct (decide (uuid = id)) as [<- | Hid], (decide (uuid = id')) as [<- | Hid'];
      try done.
    + intros [= <-] Hs' Heq. simpl in Heq.
      destruct (Hreg id' s' Hs') as [Hlt _]. simpl in Hlt. lia.
    + intros Hs [= <-] Heq. simpl in Heq.
      destruct (Hreg id s Hs) as [Hlt _]. simpl in Hlt. lia.
    + apply Hdist.
  - intros r Hr. destruct (Hstr r Hr) as [Hlt Hown]. simpl in *. split; [lia |].
    intros id s. rewrite lookup_insert. case_decide as Hid.
    + intros [= <-] Heq. simpl in Heq. lia.
    + apply Hown.
Qed.

Lemma coherent_delete id srv strs :
  coherent (mkSystem srv strs) ->
  coherent (mkSystem (sessionsDelete id srv) strs).
Proof.
  intros (Hab & Hreg & Hdist & Hstr). unfold coherent. simpl.
  split; [done |]. split; [| split].
  - intros id' s Hs. apply lookup_delete_Some in Hs as [_ Hs]. by apply (Hreg id').
  - intros id1 id2 s s' Hs Hs'.
    apply lookup_delete_Some in Hs as [_ Hs], Hs' as [_ Hs']. by apply Hdist.
  - intros r Hr. destruct (Hstr r Hr) as [Hlt Hown]. split; [done |].
    intros id' s Hs. apply lookup_delete_Some in Hs as [_ Hs]. by apply Hown.
Qed.

(** Aborting the signal of [s] and deleting the entry of [id] keeps the
    coherence when the controller of [s] is registered under [id] or not at
    all. *)
Lemma coherent_abort_delete id s srv strs :
  coherent (mkSystem srv strs) ->
  (abortController s < controllers srv)%nat ->
  (forall id' s', sessions srv !! id' = Some s' ->
     abortController s' = abortController s -> id' = id) ->
  coherent (mkSystem (sessionsDelete id (abort s srv)) strs).
Proof.
  intros (Hab & Hreg & Hdist & Hstr) Hlt Hown. unfold coherent. simpl.
  split; [| split; [| split]].
  - intros c. rewrite elem_of_union, elem_of_singleton.
    intros [-> | Hc]; [done | by apply Hab].
  - intros id' s' Hs. apply lookup_delete_Some in Hs as [Hne Hs].
    destruct (Hreg id' s' Hs) as [Hlt' Hna]. split; [done |].
    rewrite elem_of_union, elem_of_singleton. intros [Heq | Hin]; [| done].
    apply Hne. symmetry. by apply (Hown id' s').
  - intros id1 id2 s1 s2 Hs Hs'.
    apply lookup_delete_Some in Hs as [_ Hs], Hs' as [_ Hs']. by apply Hdist.
  - intros r Hr. destruct (Hstr r Hr) as [Hlt' Hown']. split; [done |].
    intros id' s' Hs. apply lookup_delete_Some in Hs as [_ Hs]. by apply Hown'.
Qed.

Lemma coherent_streams srv strs strs' :
  (forall r, r ∈ strs' ->
     exists r0, r0 ∈ strs /\ streamId r0 = streamId r /\
                streamSession r0 = streamSession r) ->
  coherent (mkSystem srv strs) -> coherent (mkSystem srv strs').
Proof.
  intros Hsub (Hab & Hreg & Hdist & Hstr).
  split; [done |]. split; [done |]. split; [done |]. simpl.
  intros r Hr. destruct (Hsub r Hr) as (r0 & Hr0 & Hid & Hs).
  rewrite <- Hid, <- Hs. by apply Hstr.
Qed.

Lemma elem_of_mark_closed (strs : list StreamRef) (k : nat) (r0 r : StreamRef) :
  strs !! k = Some r0 ->
  r ∈ <[ k := mkStreamRef (streamId r0) (streamSession r0) true ]> strs ->
  exists r1, r1 ∈ strs /\ streamId r1 = streamId r /\
             streamSession r1 = streamSession r.
Proof.
  intros Hk Hin. apply list_elem_of_lookup in Hin as [j Hj].
  destruct (decide (k = j)) as [<- | Hne].
  - rewrite list_lookup_insert_eq in Hj by (by eapply lookup_lt_Some).
    injection Hj as <-. exists r0. split; [by eapply list_elem_of_lookup_2 | done].
  - rewrite list_lookup_insert_ne in Hj by done.
    exists r. split; [by eapply list_elem_of_lookup_2 | done].
Qed.

Lemma act_coherent gen sys a : coherent sys -> coherent (act gen sys a).
Proof.
  intros Hco. destruct sys as [srv strs]. destruct a as [body uuid | sid | sid | k | k]; simpl.
  - destruct (POST_server gen body uuid srv) as [-> | (f & p & ->)];
      [done | by apply coherent_set].
  - destruct (GET sid srv).2 as [s |] eqn:Hget; [| done].
    apply GET_Some in Hget as (id & -> & _ & Hs & _). simpl.
    destruct Hco as (Hab & Hreg & Hdist & Hstr).
    split; [done |]. split; [done |]. split; [done |]. simpl.
    intros r Hr. apply elem_of_app in Hr as [Hr | Hr]; [by apply Hstr |].
    apply list_elem_of_singleton in Hr as ->. simpl.
    split; [by apply (Hreg id) |].
    intros id' s' Hs' Heq. by apply (Hdist id' id s' s).
  - destruct (DELETE_server sid srv) as [-> | (id & s & -> & _ & Hs & ->)]; [done |].
    pose proof Hco as (_ & Hreg & Hdist & _).
    apply coherent_abort_delete; [done | by apply (Hreg id) |].
    intros id' s' Hs' Heq. by apply (Hdist id' id s' s).
  - destruct (strs !! k) as [r |] eqn:Hk; [| done].
    unfold streamCancel.
    pose proof Hco as (_ & _ & _ & Hstr).
    destruct (Hstr r ltac:(by eapply list_elem_of_lookup_2)) as [Hlt Hown].
    apply (coherent_streams _ strs);
      [intros r' Hr'; by eapply elem_of_mark_closed |].
    by apply coherent_abort_delete.
  - destruct (strs !! k) as [r |] eqn:Hk; [| done].
    destruct (streamClosed r); [done |].
    apply (coherent_streams _ strs);
      [intros r' Hr'; by eapply elem_of_mark_closed |].
    by apply coherent_delete.
Qed.

Lemma run_coherent gen actions sys :
  coherent sys -> coherent (run gen actions sys).
Proof.
  revert sys. induction actions as [| a actions IH]; intros sys Hco; [done |].
  simpl. apply IH. by apply act_coherent.
Qed.

(** ** Streams after a cancellation, and undisturbed streams *)

Lemma interrupt_closed id session s a :
  closed s.2 = true -> closed (interrupt id session s a).2 = true.
Proof. by destruct a. Qed.

Lemma interrupts_closed id session l s :
  closed s.2 = true -> closed (interrupts id session l s).2 = true.
Proof.
  revert s. induction l as [| a l IH]; intros s Hc; [done |].
  simpl. apply IH. by apply interrupt_closed.
Qed.

Lemma interrupts_transport id session l s :
  ByTransport ∈ l -> closed (interrupts id session l s).2 = true.
Proof.
  revert s. induction l as [| a l IH]; intros s Hin; [by inversion Hin |].
  simpl. apply elem_of_cons in Hin as [<- | Hin]; [| by apply IH].
  by apply interrupts_closed.
Qed.

Lemma tick_closed id session t srv st :
  closed (interrupts id session (duringWait t) (srv, st)).2 = true ->
  emitted (tickState (tick id session t srv st).2) = emitted st /\
  closed (tickState (tick id session t srv st).2) = true.
Proof.
  intros Hc. unfold tick.
  pose proof (proj1 (interrupts_stream id session (duringWait t) srv st)) as Hem.
  set (s1 := interrupts id session (duringWait t) (srv, st)) in *.
  destruct (engine t) as [| upd fl]; [done |].
  set (st1 := mkStream (closed s1.2) (emitted s1.2) (S (ticks s1.2))).
  assert (Hsend : forall st2,
            (if decide (0 < size upd)%nat then send session s1.1 upd st1 else Some st1)
            = Some st2 -> st2 = st1).
  { intros st2. destruct (decide (0 < size upd)%nat); [| by intros [= <-]].
    unfold send, enqueue. simpl. rewrite Hc.
    destruct (signalAborted s1.1 session); [by intros [= <-] | done]. }
  destruct (if decide (0 < size upd)%nat then send session s1.1 upd st1 else Some st1)
    as [st2 |]; [| done].
  rewrite (Hsend st2 eq_refl).
  destruct (decide (size fl = 0%nat)); [| done].
  unfold enqueue. simpl. by rewrite Hc.
Qed.

Lemma sseLoop_closed id session inputs srv st :
  closed st = true ->
  emitted (sseLoop id session inputs srv st).1.2 = emitted st.
Proof.
  revert srv st. induction inputs as [| t rest IH]; intros srv st Hc; simpl.
  { by destruct (signalAborted srv session). }
  destruct (signalAborted srv session); [done |].
  destruct (tick_closed id session t srv st) as [Hem Hc'].
  { by apply interrupts_closed. }
  destruct (tick id session t srv st) as [srv1 [st1 | st1 | st1]]; simpl in *;
    [done | done |].
  by rewrite IH.
Qed.

Lemma tick_aborted id session t srv st :
  signalAborted (interrupts id session (duringWait t) (srv, st)).1 session = true ->
  ticks (tickState (tick id session t srv st).2) = S (ticks st) /\
  match (tick id session t srv st).2 with
  | TickEnd st' => emitted st' = emitted st ++ [End]
  | TickThrew st' | TickMore st' => emitted st' = emitted st
  end.
Proof.
  intros Hab. unfold tick.
  destruct (interrupts_stream id session (duringWait t) srv st) as [Hem Htk].
  set (s1 := interrupts id session (duringWait t) (srv, st)) in *.
  destruct (engine t) as [| upd fl]; [simpl; by rewrite Htk |].
  unfold send. rewrite Hab.
  replace (if decide (0 < size upd)%nat
           then Some (mkStream (closed s1.2) (emitted s1.2) (S (ticks s1.2)))
           else Some (mkStream (closed s1.2) (emitted s1.2) (S (ticks s1.2))))
    with (Some (mkStream (closed s1.2) (emitted s1.2) (S (ticks s1.2))))
    by (by destruct (decide (0 < size upd)%nat)).
  destruct (decide (size fl = 0%nat)); [| simpl; by rewrite Htk].
  unfold enqueue. simpl. destruct (closed s1.2); simpl; by rewrite Htk, ?Hem.
Qed.

Lemma tick_ticks id session t srv st :
  ticks (tickState (tick id session t srv st).2) = S (ticks st).
Proof.
  unfold tick.
  destruct (interrupts_stream id session (duringWait t) srv st) as [_ Htk].
  set (s1 := interrupts id session (duringWait t) (srv, st)) in *.
  destruct (engine t) as [| upd fl]; [simpl; by rewrite Htk |].
  set (st1 := mkStream (closed s1.2) (emitted s1.2) (S (ticks s1.2))).
  assert (Hsend : forall st2,
            (if decide (0 < size upd)%nat then send session s1.1 upd st1 else Some st1)
            = Some st2 -> ticks st2 = S (ticks s1.2)).
  { intros st2. destruct (decide (0 < size upd)%nat); [| by intros [= <-]].
    intros Hs. by apply send_Some in Hs as (_ & -> & _). }
  destruct (if decide (0 < size upd)%nat then send session s1.1 upd st1 else Some st1)
    as [st2 |]; [| simpl; by rewrite Htk].
  specialize (Hsend st2 eq_refl).
  destruct (decide (size fl = 0%nat)); [| simpl; by rewrite Hsend, Htk].
  destruct (enqueue End st2) as [st3 |] eqn:Henq; simpl.
  - apply enqueue_Some in Henq as (_ & _ & _ & ->). by rewrite Hsend, Htk.
  - by rewrite Hsend, Htk.
Qed.

Lemma sseLoop_ticks id session inputs srv st :
  (ticks st <= ticks (sseLoop id session inputs srv st).1.2 <=
   ticks st + length inputs)%nat.
Proof.
  revert srv st. induction inputs as [| t rest IH]; intros srv st; simpl.
  { destruct (signalAborted srv session); simpl; lia. }
  destruct (signalAborted srv session); [simpl; lia |].
  pose proof (tick_ticks id session t srv st) as Htk.
  destruct (tick id session t srv st) as [srv1 [st1 | st1 | st1]]; simpl in *;
    [lia | lia |].
  specialize (IH srv1 st1). lia.
Qed.



(** ** Further properties of the reconstruction *)

(** X1. The key [`${x},${y}`] determines the coordinate: cells of different
    coordinates never share a key of [coords] or of a [coordMap]. *)
Theorem coordKey_distinct (cx cy cx' cy' : Z) :
  cx <> cx' \/ cy <> cy' -> coordKey cx cy <> coordKey cx' cy'.
Proof.
  intros Hne Heq. apply coordKey_inj in Heq as [-> ->]. by destruct Hne.
Qed.

Lemma coordKey_distinct_witness :
  (1 <> 12 \/ 23 <> 3) /\ coordKey 1 23 <> coordKey 12 3.
Proof.
  assert (Hne : 1 <> 12 \/ 23 <> 3) by (left; lia).
  split; [exact Hne | exact (coordKey_distinct 1 23 12 3 Hne)].
Defined.

(** X2. Whatever [coords] is, every index of the reconstructed array holds
    the supplied cell that [coords] sends there last, and what the tree array
    has at that index (a tree inside, nothing beyond its end) where [coords]
    sends no supplied cell. *)
Theorem reconstruct_last_write_wins (width height : Z) (cells : list Cell)
    (coords : gmap string Z) (p : Z) :
  0 <= p ->
  arrayGet (reconstruct width height cells coords) p =
  match lastAt coords cells p with
  | Some c => Some c
  | None => arrayGet (treeCells width height) p
  end.
Proof. intros Hp. unfold reconstruct. by apply overlay_last_write. Qed.

Lemma reconstruct_last_write_wins_witness :
  let cells := [mkCell 0 0 B 0; mkCell 5 5 E 0; mkCell 0 0 E 2] in
  let coords : gmap string Z := {[ "0,0" := 1; "5,5" := 1 ]} in
  0 <= 1 /\
  arrayGet (reconstruct 2 1 cells coords) 1 = Some (mkCell 0 0 E 2).
Proof.
  simpl. split; [lia |].
  rewrite (reconstruct_last_write_wins 2 1) by lia.
  vm_compute. reflexivity.
Defined.

(** X3. When every index that [coords] gives to a supplied cell is below
    2^32 - 1 (negative, or an array index), the reconstructed array never has
    fewer entries than the tree array; it reaches past every non-negative
    index that [coords] gives to a supplied cell; and it has exactly the
    entries of the tree array when all those indices lie inside it. *)
Theorem reconstruct_length (width height : Z) (cells : list Cell)
    (coords : gmap string Z) :
  (forall c i, c ∈ cells -> coords !! coordKey (x c) (y c) = Some i ->
     i < arrayIndexLimit) ->
  (length (treeCells width height) <=
     length (reconstruct width height cells coords))%nat /\
  (forall c i, c ∈ cells -> coords !! coordKey (x c) (y c) = Some i -> 0 <= i ->
     (Z.to_nat i < length (reconstruct width height cells coords))%nat) /\
  ((forall c i, c ∈ cells -> coords !! coordKey (x c) (y c) = Some i ->
      i < Z.of_nat (length (treeCells width height))) ->
   length (reconstruct width height cells coords) =
   length (treeCells width height)).
Proof.
  intros _. unfold reconstruct. split; [apply length_overlay_ge |].
  split; [intros c i; apply length_overlay_covers | apply length_overlay_inside].
Qed.

Lemma reconstruct_length_witness :
  let grown := reconstruct 2 2 [mkCell 1 1 B 0] {[ "1,1" := 7 ]} in
  7 < arrayIndexLimit /\
  (Z.to_nat 7 < length grown)%nat /\
  length (reconstruct 2 2 [mkCell 0 0 B 0] {[ "0,0" := 3 ]}) =
    length (treeCells 2 2).
Proof.
  simpl. split; [reflexivity |]. split.
  - refine (proj1 (proj2 (reconstruct_length 2 2 [mkCell 1 1 B 0] {[ "1,1" := 7 ]} _))
              (mkCell 1 1 B 0) 7 _ _ _); [| left | reflexivity | lia].
    intros c i Hin Hkey. apply list_elem_of_singleton in Hin as ->.
    vm_compute in Hkey. injection Hkey as <-. reflexivity.
  - refine (proj2 (proj2 (reconstruct_length 2 2 [mkCell 0 0 B 0] {[ "0,0" := 3 ]} _)) _).
    + intros c i Hin Hkey. apply list_elem_of_singleton in Hin as ->.
      vm_compute in Hkey. injection Hkey as <-. reflexivity.
    + intros c i Hin Hkey. apply list_elem_of_singleton in Hin as ->.
      vm_compute in Hkey. injection Hkey as <-. vm_compute. reflexivity.
Defined.

(** X4. With the row-major [coords], a field that satisfies the Field
    invariant is reconstructed from its own cells as it is; so submitting the
    cells of a reconstructed field again gives the same field. *)
Theorem reconstruct_complete_field (width height : Z) :
  0 < width -> 0 < height ->
  (forall arr, fieldInvariant width height arr ->
     reconstruct width height (omap id arr) (rowMajorCoords width height) = arr) /\
  (forall cells coords, consistentOn width height coords cells ->
     reconstruct width height
       (omap id (reconstruct width height cells coords))
       (rowMajorCoords width height) =
     reconstruct width height cells coords).
Proof.
  intros Hw Hh. split.
  - intros arr Hinv. by apply reconstruct_complete.
  - intros cells coords Hcons. apply reconstruct_complete; [done.. |].
    by apply reconstruct_invariant.
Qed.

Lemma reconstruct_complete_field_witness :
  0 < 2 /\ 0 < 2 /\
  reconstruct 2 2
    (omap id (reconstruct 2 2 [mkCell 0 (-1) B 3] (rowMajorCoords 2 2)))
    (rowMajorCoords 2 2) =
  reconstruct 2 2 [mkCell 0 (-1) B 3] (rowMajorCoords 2 2).
Proof.
  split; [lia |]. split; [lia |].
  apply (reconstruct_complete_field 2 2); [lia | lia |].
  apply rowMajorCoords_consistent; lia.
Defined.

(** ** Further properties of the registry *)

(** X5. Create, attach, cancel: after a POST that is answered with a session
    id (not the empty one), GET on that id hands out the session just stored
    (the request's dimensions and parameters, the reconstructed cells, the
    generated index), every other entry of the registry is as before, DELETE
    on the id succeeds, and GET on it fails from then on. *)
Theorem create_attach_cancel
    (generateCoordMap : CellArray -> option (gmap string Z))
    (b : Body.t) (uuid : string) (srv : Server)
    (f : Body.FieldJson) (p : ForestFireParams) (coords m : gmap string Z) :
  Body.field b = Some f -> Body.params b = Some p -> Body.coords b = Some coords ->
  generateCoordMap
    (reconstruct (Body.width f) (Body.height f) (Body.cells f) coords) = Some m ->
  uuid <> "" ->
  let created := (POST generateCoordMap (Some b) uuid srv).1 in
  exists session,
    GET (Some uuid) created = (EventStream, Some session) /\
    field session =
      mkField (Body.width f) (Body.height f)
        (reconstruct (Body.width f) (Body.height f) (Body.cells f) coords) m /\
    params session = p /\ sessionCoordMap session = m /\
    (forall id, id <> uuid -> sessions created !! id = sessions srv !! id) /\
    (DELETE (Some uuid) created).2 = Json SuccessBody 200 /\
    GET (Some uuid) (DELETE (Some uuid) created).1 = (UnknownSession, None).
Proof.
  intros Hf Hp Hc Hm Hid. simpl. unfold POST. rewrite Hf, Hp, Hc, Hm. simpl.
  eexists. split; [apply GET_known; [done | apply lookup_insert_eq] |].
  split; [done |]. split; [done |]. split; [done |].
  split; [intros id Hne; by apply lookup_insert_ne |].
  erewrite DELETE_known; [| done | apply lookup_insert_eq]. simpl.
  split; [done |]. apply GET_unknown. apply lookup_delete_eq.
Qed.

Lemma create_attach_cancel_witness :
  exists session,
    GET (Some "id") (POST buildCoordinateIndex (Some outsideBody) "id" emptyServer).1
      = (EventStream, Some session) /\
    params session = exampleParams.
Proof.
  destruct (create_attach_cancel buildCoordinateIndex outsideBody "id" emptyServer
              (Body.mkFieldJson 2 2 [mkCell 5 5 B 0]) exampleParams
              (rowMajorCoords 2 2) (rowMajorCoords 2 2))
    as (session & Hget & _ & Hp & _).
  - reflexivity.
  - reflexivity.
  - reflexivity.
  - vm_compute. reflexivity.
  - discriminate.
  - exists session. split; [exact Hget | exact Hp].
Defined.

(** X13. POST answers 400 "Missing field or params" exactly when the body
    was parsed and lacks field, params or coords; every answer other than
    the session id leaves the server state as it was; and the answer with the
    session id comes with a registry entry under that id and a controller
    that no earlier session has. *)
Theorem POST_failures_change_nothing
    (generateCoordMap : CellArray -> option (gmap string Z))
    (body : option Body.t) (uuid : string) (srv : Server) :
  ((POST generateCoordMap body uuid srv).2 =
     Json (ErrorBody "Missing field or params") 400 <->
   exists b, body = Some b /\
     (Body.field b = None \/ Body.params b = None \/ Body.coords b = None)) /\
  ((POST generateCoordMap body uuid srv).2 <> Json (SessionIdBody uuid) 200 ->
   (POST generateCoordMap body uuid srv).1 = srv) /\
  ((POST generateCoordMap body uuid srv).2 = Json (SessionIdBody uuid) 200 ->
   exists session,
     sessions (POST generateCoordMap body uuid srv).1 !! uuid = Some session /\
     abortController session = controllers srv /\
     controllers (POST generateCoordMap body uuid srv).1 = S (controllers srv)).
Proof.
  unfold POST. destruct body as [b |]; simpl.
  2: { split; [split; [done | by intros (? & ? & _)] |]. split; [done | done]. }
  destruct (Body.field b) as [f |] eqn:Hf;
    [| split; [split; [intros _; exists b; auto | done] | split; done]].
  destruct (Body.params b) as [p |] eqn:Hp;
    [| split; [split; [intros _; exists b; auto | done] | split; done]].
  destruct (Body.coords b) as [coords |] eqn:Hc;
    [| split; [split; [intros _; exists b; auto | done] | split; done]].
  assert (Hno : ~ exists b0, Some b = Some b0 /\
            (Body.field b0 = None \/ Body.params b0 = None \/ Body.coords b0 = None)).
  { intros (b0 & [= <-] & [H | [H | H]]); congruence. }
  destruct (generateCoordMap _) as [m |]; simpl.
  - split; [split; [done | by intros H; destruct (Hno H)] |].
    split; [by intros H; destruct H |].
    intros _. eexists. split; [apply lookup_insert_eq | done].
  - split; [split; [done | by intros H; destruct (Hno H)] |]. split; done.
Qed.

Lemma POST_failures_change_nothing_witness :
  (POST buildCoordinateIndex
     (Some (Body.mk (Some (Body.mkFieldJson 1 1 [])) None (Some ∅))) "id"
     exampleServer) =
  (exampleServer, Json (ErrorBody "Missing field or params") 400).
Proof.
  destruct (POST_failures_change_nothing buildCoordinateIndex
              (Some (Body.mk (Some (Body.mkFieldJson 1 1 [])) None (Some ∅))) "id"
              exampleServer) as (Hmissing & Hsame & _).
  apply injective_projections.
  - apply Hsame. simpl. discriminate.
  - apply Hmissing. eexists. split; [reflexivity |]. right. left. reflexivity.
Defined.

(** X6. In whatever order POST, GET, DELETE, the [cancel()] of the opened
    streams and their [finally] blocks run, no session of the registry is
    ever aborted: cancelling one session never aborts another registered one,
    and a stream opened on a registered session does not stop at its first
    test of the signal but waits for its first timer and calls the engine. *)
Theorem registered_sessions_are_live
    (generateCoordMap : CellArray -> option (gmap string Z))
    (actions : list Action) (id : string) (session : Session) :
  let srv := server (run generateCoordMap actions initialSystem) in
  sessions srv !! id = Some session ->
  signalAborted srv session = false /\
  forall t rest,
    (1 <= ticks (sseLoop id session (t :: rest) srv newStream).1.2)%nat.
Proof.
  simpl. intros Hs.
  destruct (run_coherent generateCoordMap actions initialSystem coherent_initial)
    as (_ & Hreg & _).
  destruct (Hreg id session Hs) as [_ Hna].
  assert (Hab : signalAborted
                  (server (run generateCoordMap actions initialSystem)) session = false)
    by (by apply bool_decide_eq_false_2).
  split; [done |]. intros t rest. simpl. rewrite Hab.
  pose proof (tick_ticks id session t
                (server (run generateCoordMap actions initialSystem)) newStream) as Htk.
  destruct (tick id session t _ newStream) as [srv1 [st1 | st1 | st1]];
    simpl in *; [lia | lia |].
  pose proof (sseLoop_ticks id session rest srv1 st1). lia.
Qed.

Lemma registered_sessions_are_live_witness :
  let actions :=
    [DoPOST (Some degenerateBody) "a"; DoPOST (Some degenerateBody) "b";
     DoGET (Some "a"); DoGET (Some "b"); DoDELETE (Some "a");
     DoCancel 0; DoFinally 0] in
  let srv := server (run buildCoordinateIndex actions initialSystem) in
  let session := mkSession (mkField 0 (-3) [] ∅) exampleParams ∅ 1 in
  sessions srv !! "b" = Some session /\ signalAborted srv session = false.
Proof.
  intros actions srv session.
  assert (Hs : sessions srv !! "b" = Some session) by (vm_compute; reflexivity).
  split; [exact Hs |].
  exact (proj1 (registered_sessions_are_live buildCoordinateIndex actions "b"
                  session Hs)).
Defined.


(** X8. A tick during whose wait the signal is aborted is the last one: the
    loop adds no delta, adds at most the end event, and has ended after that
    tick whatever the later engine results would be. *)
Theorem cancelled_tick_is_last (id : string) (session : Session)
    (t : TickInput) (rest : list TickInput) (srv : Server) (st : StreamState) :
  signalAborted srv session = false ->
  signalAborted (interrupts id session (duringWait t) (srv, st)).1 session = true ->
  let r := sseLoop id session (t :: rest) srv st in
  ticks r.1.2 = S (ticks st) /\ r.2 <> Running /\
  (emitted r.1.2 = emitted st \/
   (emitted r.1.2 = emitted st ++ [End] /\ r.2 = Completed)).
Proof.
  intros Hab0 Hab. simpl. rewrite Hab0.
  destruct (tick_aborted id session t srv st Hab) as [Htk Hem].
  pose proof (tick_server id session t srv st) as Hsrv.
  destruct (tick id session t srv st) as [srv1 [st1 | st1 | st1]]; simpl in *.
  - split; [done |]. split; [done | by left].
  - split; [done |]. split; [done | by right].
  - subst srv1. rewrite (sseLoop_aborted _ _ _ _ _ Hab). simpl.
    split; [done |]. split; [done | by left].
Qed.

Lemma cancelled_tick_is_last_witness :
  let t := mkTick [ByDelete] (Returns {[ "0,0" := mkCell 0 0 B 1 ]} {[ "0,0" ]}) in
  let r := sseLoop "a" exampleSession [t; mkTick [] (Returns ∅ ∅)]
             exampleServer newStream in
  ticks r.1.2 = 1%nat /\ r.2 <> Running /\ emitted r.1.2 = [].
Proof.
  simpl.
  destruct (cancelled_tick_is_last "a" exampleSession
              (mkTick [ByDelete] (Returns {[ "0,0" := mkCell 0 0 B 1 ]} {[ "0,0" ]}))
              [mkTick [] (Returns ∅ ∅)] exampleServer newStream)
    as (Htk & Hout & Hem).
  - reflexivity.
  - vm_compute. reflexivity.
  - split; [exact Htk |]. split; [exact Hout |]. vm_compute. reflexivity.
Defined.

(** X9. Once the consumer of a stream has gone away, nothing is enqueued on
    that stream any more: neither a delta nor the end event, whatever the
    engine returns afterwards. *)
Theorem nothing_after_transport_close (id : string) (session : Session)
    (t : TickInput) (rest : list TickInput) (srv : Server) (st : StreamState) :
  (closed st = true ->
     emitted (sseLoop id session (t :: rest) srv st).1.2 = emitted st) /\
  (ByTransport ∈ duringWait t ->
     emitted (sseLoop id session (t :: rest) srv st).1.2 = emitted st).
Proof.
  split; [apply sseLoop_closed |].
  intros Hin. simpl. destruct (signalAborted srv session); [done |].
  destruct (tick_closed id session t srv st) as [Hem Hc];
    [by apply interrupts_transport |].
  destruct (tick id session t srv st) as [srv1 [st1 | st1 | st1]]; simpl in *;
    [done | done |].
  by rewrite sseLoop_closed.
Qed.

Lemma nothing_after_transport_close_witness :
  emitted (sseLoop "a" exampleSession
             [mkTick [ByTransport] (Returns {[ "0,0" := mkCell 0 0 B 1 ]} ∅)]
             exampleServer newStream).1.2 = [].
Proof.
  refine (proj2 (nothing_after_transport_close "a" exampleSession
            (mkTick [ByTransport] (Returns {[ "0,0" := mkCell 0 0 B 1 ]} ∅)) []
            exampleServer newStream) _).
  simpl. left.
Defined.

(** X10. An undisturbed stream runs to completion: when nothing cancels,
    every tick leaves something flammable and the last one leaves nothing,
    the stream carries the non-empty deltas in the order of the generations
    and then the end event, has called the engine once per tick, and its
    [finally] block removes the entry; later engine results are not asked
    for. *)
Theorem undisturbed_stream_completes (id : string) (session : Session)
    (pre : list TickInput) (t : TickInput) (rest : list TickInput)
    (srv : Server) (upd : gmap string Cell) (fl : gset string) :
  signalAborted srv session = false ->
  Forall quietTick pre ->
  duringWait t = [] -> engine t = Returns upd fl -> size fl = 0%nat ->
  start id session (pre ++ t :: rest) srv =
  (sessionsDelete id srv,
   mkStream true (deltasOf (pre ++ [t]) ++ [End]) (length pre + 1),
   Completed).
Proof.
  intros Hab Hpre Hw He Hfl. unfold start.
  rewrite (sseLoop_quiet id session pre (t :: rest) srv newStream Hab eq_refl Hpre). simpl. rewrite Hab.
  unfold tick, deltasOf. rewrite Hw, He. simpl. unfold send, enqueue. simpl.
  rewrite Hab. rewrite omap_app. simpl. rewrite He.
  destruct (decide (0 < size upd)%nat); simpl;
    rewrite (decide_True (P := size fl = 0%nat)) by done; simpl;
    rewrite ?app_nil_r, <- ?app_assoc; do 3 f_equal; lia.
Qed.

Lemma undisturbed_stream_completes_witness :
  start "a" exampleSession
    [mkTick [] (Returns {[ "0,0" := mkCell 0 0 B 1 ]} {[ "0,0" ]});
     mkTick [] (Returns ∅ {[ "0,0" ]});
     mkTick [] (Returns {[ "0,0" := mkCell 0 0 E 0 ]} ∅);
     mkTick [] Throws]
    exampleServer =
  (sessionsDelete "a" exampleServer,
   mkStream true [Delta {[ "0,0" := mkCell 0 0 B 1 ]};
                  Delta {[ "0,0" := mkCell 0 0 E 0 ]}; End] 3,
   Completed).
Proof.
  etrans.
  - apply (undisturbed_stream_completes "a" exampleSession
             [mkTick [] (Returns {[ "0,0" := mkCell 0 0 B 1 ]} {[ "0,0" ]});
              mkTick [] (Returns ∅ {[ "0,0" ]})]
             (mkTick [] (Returns {[ "0,0" := mkCell 0 0 E 0 ]} ∅))
             [mkTick [] Throws] exampleServer
             {[ "0,0" := mkCell 0 0 E 0 ]} ∅).
    + reflexivity.
    + apply Forall_cons. split; [| apply Forall_singleton].
      * split; [reflexivity |].
        exists {[ "0,0" := mkCell 0 0 B 1 ]}, {[ "0,0" ]}.
        split; [reflexivity | vm_compute; discriminate].
      * split; [reflexivity |].
        exists ∅, {[ "0,0" ]}. split; [reflexivity | vm_compute; discriminate].
    + reflexivity.
    + reflexivity.
    + reflexivity.
  - vm_compute. reflexivity.
Defined.

(** X11. An exception of the engine ends the stream without an end event:
    after undisturbed ticks that leave something flammable, a throwing call
    leaves the deltas sent so far on the stream, and the [finally] block
    still removes the entry. *)
Theorem engine_exception_ends_stream (id : string) (session : Session)
    (pre : list TickInput) (t : TickInput) (rest : list TickInput)
    (srv : Server) :
  signalAborted srv session = false ->
  Forall quietTick pre ->
  duringWait t = [] -> engine t = Throws ->
  start id session (pre ++ t :: rest) srv =
  (sessionsDelete id srv, mkStream true (deltasOf pre) (length pre + 1), Failed).
Proof.
  intros Hab Hpre Hw He. unfold start.
  rewrite (sseLoop_quiet id session pre (t :: rest) srv newStream Hab eq_refl Hpre). simpl. rewrite Hab.
  unfold tick. rewrite Hw, He. simpl. do 3 f_equal. lia.
Qed.

Lemma engine_exception_ends_stream_witness :
  start "a" exampleSession
    [mkTick [] (Returns {[ "0,0" := mkCell 0 0 B 1 ]} {[ "0,0" ]});
     mkTick [] Throws; mkTick [] (Returns ∅ ∅)]
    exampleServer =
  (sessionsDelete "a" exampleServer,
   mkStream true [Delta {[ "0,0" := mkCell 0 0 B 1 ]}] 2, Failed).
Proof.
  etrans.
  - apply (engine_exception_ends_stream "a" exampleSession
             [mkTick [] (Returns {[ "0,0" := mkCell 0 0 B 1 ]} {[ "0,0" ]})]
             (mkTick [] Throws) [mkTick [] (Returns ∅ ∅)] exampleServer).
    + reflexivity.
    + apply Forall_singleton. split; [reflexivity |].
      exists {[ "0,0" := mkCell 0 0 B 1 ]}, {[ "0,0" ]}.
      split; [reflexivity | vm_compute; discriminate].
    + reflexivity.
    + reflexivity.
  - vm_compute. reflexivity.
Defined.

(** ** The canvas lookup *)

(** X12. On a field that satisfies the Field invariant and carries the
    row-major index, the canvas lookup answers a pointer at world coordinate
    (wx, wy) with the cell of that coordinate when (wx, wy) lies in the box
    and |wy| <= ⌊width/2⌋, and with null otherwise; on a square field that is
    every coordinate of the box, on a field higher than wide the rows with
    |wy| > ⌊width/2⌋ are never answered. *)
Theorem canvas_lookup (f : Field) (wx wy : Z) :
  0 < width f -> 0 < height f ->
  fieldInvariant (width f) (height f) (cells f) ->
  coordMap f = rowMajorCoords (width f) (height f) ->
  (inBox (width f) (height f) wx wy /\ Z.abs wy <= width f / 2 ->
     exists c, getCellAtWorld f wx wy = Some c /\ x c = wx /\ y c = wy) /\
  (~ (inBox (width f) (height f) wx wy /\ Z.abs wy <= width f / 2) ->
     getCellAtWorld f wx wy = None) /\
  (width f = height f -> inBox (width f) (height f) wx wy ->
     Z.abs wy <= width f / 2).
Proof.
  intros Hw Hh Hinv Hmap. unfold getCellAtWorld. rewrite Hmap.
  split; [| split].
  - intros [Hbox Hy]. rewrite decide_False.
    + rewrite rowMajorCoords_inside by (done || lia).
      destruct Hinv as [_ Hcell]. destruct (Hcell _ _ Hbox) as (c & Hc & Hxy).
      by exists c.
    + destruct Hbox as [Hx _]. intros [Hgt | Hgt]; [| lia].
      revert Hx Hgt. Z.to_euclidean_division_equations. lia.
  - intros Hnot. case_decide as Hfar; [done |].
    destruct (decide (inBox (width f) (height f) wx wy)) as [Hbox | Hbox].
    + destruct Hnot. split; [done | lia].
    + by rewrite rowMajorCoords_outside by (done || lia).
  - intros Heq [_ Hy]. rewrite <- Heq in Hy.
    revert Hy. Z.to_euclidean_division_equations. lia.
Qed.

Lemma canvas_lookup_witness :
  let f := mkField 2 6 (treeCells 2 6) (rowMajorCoords 2 6) in
  getCellAtWorld f 0 1 = Some (treeCell 0 1) /\
  inBox 2 6 0 2 /\ getCellAtWorld f 0 2 = None.
Proof.
  simpl.
  assert (Hinv : fieldInvariant 2 6 (treeCells 2 6))
    by (apply treeCells_invariant; lia).
  destruct (canvas_lookup (mkField 2 6 (treeCells 2 6) (rowMajorCoords 2 6)) 0 1
              ltac:(simpl; lia) ltac:(simpl; lia) Hinv eq_refl) as (Hhit & _ & _).
  destruct (canvas_lookup (mkField 2 6 (treeCells 2 6) (rowMajorCoords 2 6)) 0 2
              ltac:(simpl; lia) ltac:(simpl; lia) Hinv eq_refl) as (_ & Hmiss & _).
  split; [| split].
  - destruct Hhit as (c & Hc & _).
    + split; [vm_compute; intuition discriminate | vm_compute; discriminate].
    + rewrite Hc. vm_compute in Hc. injection Hc as <-. reflexivity.
  - vm_compute. intuition discriminate.
  - apply Hmiss. intros [_ Habs]. vm_compute in Habs. by apply Habs.
Defined.
